(** * Valorant analytics agent: player context, incremental match sync and
      aggregation tools

    A shallow embedding of the agent tools of [src/tools.ts]
    ([setActivePlayer], [ingestOrRefreshMatches], [queryKDR],
    [summarizeRecentPerformance], [listRecentMatches]) together with the
    properties of the player-context tracker and of the incremental
    synchronisation engine.

    Modelling conventions:
    - a JavaScript string is a [string]; each character is one code unit
      below 256 (Latin-1);
    - [undefined] and [null] are [None];
    - counts reported by the upstream API (kills, deaths, shots, score,
      damage, money) are non-negative integers, [N]; SQLite REAL columns
      and JavaScript quotients are exact rationals, [Q];
    - the tables [valorant_matches] and [valorant_player_stats] are lists of
      rows in rowid order (the order in which a table scan meets them), the
      table [player_cursor], which is only ever read by primary key, is a
      finite map from the key to the rest of the row;
    - the upstream HTTP API is an oracle answering the requests of one tool
      call, numbered in the order in which the call sends them; the tool
      also returns the list of regions it requested;
    - a tool call that throws (a body that is not JSON, a date out of
      range) is outside the model, and so is the rounding error of binary
      floating point: [toFixed(2)] rounds the exact quotient. *)

From Stdlib Require Import Ascii QArith Qround Qabs Lqa.
From Stdlib Require OrderedTypeEx.
From stdpp Require Import base option list strings pretty gmap sorting.

Close Scope Q_scope.
Open Scope list_scope.

(** ** JavaScript strings and truthiness *)

Module Js.

(** White space removed by [String.prototype.trim], among the code units
    below 256: TAB, LF, VT, FF, CR, SPACE and NO-BREAK SPACE. *)
Definition is_white_space (c : ascii) : bool :=
  let n := nat_of_ascii c in
  (Nat.leb 9 n && Nat.leb n 13) || Nat.eqb n 32 || Nat.eqb n 160.

Fixpoint trimStart (s : string) : string :=
  match s with
  | EmptyString => EmptyString
  | String c r => if is_white_space c then trimStart r else s
  end.

Fixpoint trimEnd (s : string) : string :=
  match s with
  | EmptyString => EmptyString
  | String c r =>
      match trimEnd r with
      | EmptyString => if is_white_space c then EmptyString else String c EmptyString
      | r' => String c r'
      end
  end.

Definition trim (s : string) : string := trimEnd (trimStart s).

(** [s.indexOf(c)] for a one-character needle; [None] stands for [-1]. *)
Fixpoint indexOf (c : ascii) (s : string) : option nat :=
  match s with
  | EmptyString => None
  | String d r =>
      if Ascii.eqb d c then Some 0
      else match indexOf c r with
           | Some i => Some (S i)
           | None => None
           end
  end.

(** [s.slice(a, b)] and [s.slice(a)] for [0 <= a <= b]. *)
Definition slice (s : string) (a b : nat) : string := String.substring a (b - a) s.
Definition sliceFrom (s : string) (a : nat) : string :=
  String.substring a (String.length s - a) s.

(** [toLowerCase] on one code unit below 256: A-Z and the Latin-1 capitals
    U+00C0..U+00DE (the multiplication sign U+00D7 apart) move up by 32. *)
Definition lower_char (c : ascii) : ascii :=
  let n := nat_of_ascii c in
  if (Nat.leb 65 n && Nat.leb n 90)
     || (Nat.leb 192 n && Nat.leb n 222 && negb (Nat.eqb n 215))
  then ascii_of_nat (n + 32) else c.

Fixpoint toLowerCase (s : string) : string :=
  match s with
  | EmptyString => EmptyString
  | String c r => String (lower_char c) (toLowerCase r)
  end.

(** Truthiness of a string ([""] is falsy) and of a possibly absent one. *)
Definition truthy (s : string) : bool := negb (String.eqb s "").

Definition truthy_opt (o : option string) : bool :=
  match o with
  | Some s => truthy s
  | None => false
  end.

(** [a ?? b] *)
Definition nullish {A} (a : option A) (b : option A) : option A :=
  match a with
  | Some _ => a
  | None => b
  end.

(** [pp?.name?.toLowerCase() === s]: an absent name is never equal. *)
Definition lower_equals (o : option string) (s : string) : bool :=
  match o with
  | Some x => String.eqb (toLowerCase x) s
  | None => false
  end.

End Js.

(** ** Regions *)

Inductive Region := na | eu | ap | kr | latam | br.

#[global] Instance Region_eq_dec : EqDecision Region.
Proof. solve_decision. Defined.

(** [const REGIONS = ["na", "eu", "ap", "kr", "latam", "br"]] *)
Definition REGIONS : list Region := [na; eu; ap; kr; latam; br].

Definition region_name (r : Region) : string :=
  match r with
  | na => "na" | eu => "eu" | ap => "ap"
  | kr => "kr" | latam => "latam" | br => "br"
  end.

(** ** The agent: session state and SQLite tables *)

(** [activePlayer: { region?, name, tag }] *)
Module ActivePlayer.
Record t := {
  region : option Region;
  name : string;
  tag : string
}.
End ActivePlayer.

(** [agent.state], a record of which the tools use the key [activePlayer];
    the other keys are carried along by the spread [...currentState]. *)
Record AgentState := {
  activePlayer : option ActivePlayer.t;
  otherKeys : list (string * string)
}.

(** A row of [valorant_matches] (primary key [id]). *)
Module MatchRow.
Record t := {
  id : string;
  region : Region;
  name : string;
  tag : string;
  started_at : option string;
  mode : option string;
  map : option string;
  player_kills : option N;
  player_deaths : option N;
  player_assists : option N;
  raw : option string
}.
End MatchRow.

(** A row of [valorant_player_stats] (primary key [match_id]). *)
Module StatsRow.
Record t := {
  match_id : string;
  region : Region;
  name : string;
  tag : string;
  character : option string;
  rank : option string;
  kills : option N;
  deaths : option N;
  assists : option N;
  bodyshots : option N;
  headshots : option N;
  legshots : option N;
  score : option N;
  spent_overall : option N;
  spent_avg : option Q;
  loadout_overall : option N;
  loadout_avg : option Q;
  damage_made : option N;
  damage_received : option N
}.
End StatsRow.

(** The columns of [player_cursor] besides the key [pk]. *)
Module CursorRow.
Record t := {
  last_match_id : option string;
  last_started_at : option string
}.
End CursorRow.

Record Agent := {
  state : AgentState;
  valorant_matches : list MatchRow.t;
  valorant_player_stats : list StatsRow.t;
  player_cursor : gmap string CursorRow.t
}.

Definition emptyAgent : Agent :=
  {| state := {| activePlayer := None; otherKeys := [] |};
     valorant_matches := [];
     valorant_player_stats := [];
     player_cursor := ∅ |}.

(** [agent.setState({ ...currentState, activePlayer: p })] *)
Definition setState_activePlayer (p : ActivePlayer.t) (ag : Agent) : Agent :=
  {| state := {| activePlayer := Some p; otherKeys := otherKeys (state ag) |};
     valorant_matches := valorant_matches ag;
     valorant_player_stats := valorant_player_stats ag;
     player_cursor := player_cursor ag |}.

(** ** [setActivePlayer] *)

(** [function splitRiotId(riotId)]: [None] is [null]. *)
Definition splitRiotId (riotId : string) : option (string * string) :=
  let s := Js.trim riotId in
  match Js.indexOf "#" s with
  | None => None
  | Some i => Some (Js.slice s 0 i, Js.sliceFrom s (i + 1))
  end.

(** The input of the tool, after validation by its schema. *)
Module SetActiveInput.
Record t := {
  riotId : option string;
  name : option string;
  tag : option string;
  region : option Region
}.
End SetActiveInput.

Inductive SetActiveReply :=
  | InvalidRiotId
  | PleaseProvide
  | ActivePlayerIsNow (name tag : string) (region : option Region).

(** The string the tool returns. *)
Definition setActiveMessage (r : SetActiveReply) : string :=
  match r with
  | InvalidRiotId => "Invalid riotId. Expected format name#tag."
  | PleaseProvide =>
      "Please provide a riotId like name#tag, or both name and tag."
  | ActivePlayerIsNow n t r =>
      "Active player is now " +:+ n +:+ "#" +:+ t +:+
      match r with
      | Some r => " (" +:+ region_name r +:+ ")"
      | None => ""
      end +:+ "."
  end.

(** The two replies that reject the input. *)
Definition isRejection (r : SetActiveReply) : bool :=
  match r with
  | InvalidRiotId | PleaseProvide => true
  | ActivePlayerIsNow _ _ _ => false
  end.

(** The [execute] of [setActivePlayer]: the reply and the agent after it.
    [name] and [tag] come from the input, or from the riotId when there is
    one; [finish] is the part from [if (!name || !tag)] on. *)
Definition setActivePlayer (input : SetActiveInput.t) (ag : Agent)
  : SetActiveReply * Agent :=
  let region := SetActiveInput.region input in
  let finish (name tag : option string) : SetActiveReply * Agent :=
    if negb (Js.truthy_opt name) || negb (Js.truthy_opt tag)
    then (PleaseProvide, ag)
    else
      (ActivePlayerIsNow (default "" name) (default "" tag) region,
       setState_activePlayer
         {| ActivePlayer.region := region;
            ActivePlayer.name := default "" name;
            ActivePlayer.tag := default "" tag |} ag) in
  if Js.truthy_opt (SetActiveInput.riotId input) then
    match SetActiveInput.riotId input ≫= splitRiotId with
    | None => (InvalidRiotId, ag)
    | Some (name, tag) => finish (Some name) (Some tag)
    end
  else finish (SetActiveInput.name input) (SetActiveInput.tag input).

(** The active player a tool works for: [None] when
    [!active?.name || !active?.tag], where every tool but [setActivePlayer]
    answers ["No active player set."]. *)
Definition activeOf (ag : Agent) : option ActivePlayer.t :=
  match activePlayer (state ag) with
  | Some active =>
      if negb (Js.truthy (ActivePlayer.name active))
         || negb (Js.truthy (ActivePlayer.tag active))
      then None else Some active
  | None => None
  end.

(** ** The upstream match-history API *)

(** [p.stats] of a roster entry. *)
Module Stats.
Record t := {
  score : option N;
  kills : option N;
  deaths : option N;
  assists : option N;
  bodyshots : option N;
  headshots : option N;
  legshots : option N
}.
End Stats.

(** [p.economy.spent] and [p.economy.loadout_value]. *)
Module Money.
Record t := {
  overall : option N;
  average : option Q
}.
End Money.

Module Economy.
Record t := {
  spent : option Money.t;
  loadout_value : option Money.t
}.
End Economy.

(** An entry of [m.players.all_players]. *)
Module RosterPlayer.
Record t := {
  name : option string;
  tag : option string;
  character : option string;
  currenttier_patched : option string;
  stats : option Stats.t;
  economy : option Economy.t;
  damage_made : option N;
  damage_received : option N
}.
End RosterPlayer.

(** [m.metadata] *)
Module Metadata.
Record t := {
  matchid : option string;
  game_start_patched : option string;
  game_start : option Z;
  map : option string;
  mode : option string
}.
End Metadata.

Module Players.
Record t := {
  all_players : option (list RosterPlayer.t)
}.
End Players.

(** One match payload of the upstream answer (the per-round detail, which
    no tool reads, is left out). *)
Module Match.
Record t := {
  metadata : option Metadata.t;
  matchid : option string;
  players : option Players.t
}.
End Match.

(** The HTTP answer to one request: a non-success status, or a success
    whose body carries [json.data], [None] when that is not an array. *)
Inductive HttpResponse :=
  | HttpError (status : N)
  | HttpOk (data : option (list Match.t)).

(** The upstream during one tool call: the answer to the request number
    [n] (counted from 0 within the call) for a region, name and tag. *)
Definition Upstream : Type := nat → Region → string → string → HttpResponse.

(** What [fetchLatestCompetitive] returns. *)
Module FetchResult.
Record t := {
  ok : bool;
  status : N;
  data : list Match.t
}.
End FetchResult.

(** [async function fetchLatestCompetitive(region)], as request number [n]. *)
Definition fetchLatestCompetitive (up : Upstream) (active : ActivePlayer.t)
    (n : nat) (region : Region) : FetchResult.t :=
  match up n region (ActivePlayer.name active) (ActivePlayer.tag active) with
  | HttpError st =>
      {| FetchResult.ok := false; FetchResult.status := st;
         FetchResult.data := [] |}
  | HttpOk d =>
      {| FetchResult.ok := true; FetchResult.status := 200%N;
         FetchResult.data := default [] d |}
  end.

(** The region probe: [for (const r of REGIONS) { ... break; }], starting
    with request number [n]. Returns the region found and the regions
    requested, in order. *)
Fixpoint probeRegions (up : Upstream) (active : ActivePlayer.t) (n : nat)
    (rs : list Region) : option Region * list Region :=
  match rs with
  | [] => (None, [])
  | r :: rs' =>
      let r1 := fetchLatestCompetitive up active n r in
      if FetchResult.ok r1 && (0 <? length (FetchResult.data r1))%nat
      then (Some r, [r])
      else
        let '(found, asked) := probeRegions up active (S n) rs' in
        (found, r :: asked)
  end.

(** ** [ingestOrRefreshMatches] *)

(** Statements on the tables. *)

(** [SELECT COUNT(1) AS c FROM valorant_matches WHERE id = matchId] *)
Definition countById (matchId : string) (tbl : list MatchRow.t) : nat :=
  length (filter (λ r, MatchRow.id r = matchId) tbl).

(** [INSERT OR IGNORE INTO valorant_matches]: a new row gets the next rowid;
    a row whose key is taken is dropped. *)
Definition insertOrIgnore (row : MatchRow.t) (tbl : list MatchRow.t)
  : list MatchRow.t :=
  if decide (countById (MatchRow.id row) tbl = 0) then tbl ++ [row] else tbl.

(** [INSERT OR REPLACE INTO valorant_player_stats]: the row that holds the
    key is deleted and the new row gets the next rowid. *)
Definition insertOrReplace (row : StatsRow.t) (tbl : list StatsRow.t)
  : list StatsRow.t :=
  filter (λ r, StatsRow.match_id r ≠ StatsRow.match_id row) tbl ++ [row].

(** [INSERT INTO player_cursor ... ON CONFLICT(pk) DO UPDATE SET ...] *)
Definition upsertCursor (pk : string) (row : CursorRow.t)
    (tbl : gmap string CursorRow.t) : gmap string CursorRow.t :=
  <[pk := row]> tbl.

(** [`${region}:${active.name}:${active.tag}`] *)
Definition cursorKey (region : Region) (active : ActivePlayer.t) : string :=
  region_name region +:+ ":" +:+ ActivePlayer.name active +:+ ":" +:+
  ActivePlayer.tag active.

Inductive IngestReply :=
  | NoActivePlayerSet
  | CouldNotResolveRegion
  | HenrikDevError (status : N)
  | Refreshed (name tag : string) (region : Region) (inserted : nat).

(** The string the tool returns. *)
Definition ingestMessage (r : IngestReply) : string :=
  match r with
  | NoActivePlayerSet => "No active player set."
  | CouldNotResolveRegion => "Could not resolve region for this Riot ID."
  | HenrikDevError st => "HenrikDev error: " +:+ pretty st
  | Refreshed n t r i =>
      "Refreshed " +:+ n +:+ "#" +:+ t +:+ " (" +:+ region_name r +:+
      "). New matches stored: " +:+ pretty i +:+ "."
  end.

(** The number of rows a call reports as stored; an error reply stores none. *)
Definition insertedCount (r : IngestReply) : nat :=
  match r with
  | Refreshed _ _ _ i => i
  | _ => 0
  end.

(** One call of the tool: its reply, the agent after it and the regions it
    sent requests for, in order. *)
Record IngestRun := {
  reply : IngestReply;
  after : Agent;
  requested : list Region
}.

Section Ingest.

(** [new Date(ms).toISOString()] *)
Variable toISOString : Z → string.

(** [meta?.matchid ?? m?.matchid] *)
Definition matchIdOf (m : Match.t) : option string :=
  Js.nullish (Match.metadata m ≫= Metadata.matchid) (Match.matchid m).

(** [meta?.game_start_patched ??
     (meta?.game_start ? new Date(meta.game_start * 1000).toISOString() : null)] *)
Definition startedOf (meta : option Metadata.t) : option string :=
  Js.nullish (meta ≫= Metadata.game_start_patched)
    match meta ≫= Metadata.game_start with
    | Some g => if (g =? 0)%Z then None else Some (toISOString (g * 1000))
    | None => None
    end.

(** [allPlayers.find(pp => pp?.name?.toLowerCase() === active.name.toLowerCase()
                         && pp?.tag?.toLowerCase() === active.tag.toLowerCase())] *)
Definition isActivePlayer (active : ActivePlayer.t) (pp : RosterPlayer.t) : bool :=
  Js.lower_equals (RosterPlayer.name pp) (Js.toLowerCase (ActivePlayer.name active))
  && Js.lower_equals (RosterPlayer.tag pp) (Js.toLowerCase (ActivePlayer.tag active)).

Definition findPlayer (active : ActivePlayer.t) (m : Match.t)
  : option RosterPlayer.t :=
  List.find (isActivePlayer active)
    (default [] (Match.players m ≫= Players.all_players)).

(** The values bound into [INSERT OR IGNORE INTO valorant_matches]. *)
Definition matchRowOf (region : Region) (active : ActivePlayer.t)
    (m : Match.t) (matchId : string) : MatchRow.t :=
  let meta := Match.metadata m in
  let p := findPlayer active m in
  let stats := p ≫= RosterPlayer.stats in
  {| MatchRow.id := matchId;
     MatchRow.region := region;
     MatchRow.name := ActivePlayer.name active;
     MatchRow.tag := ActivePlayer.tag active;
     MatchRow.started_at := startedOf meta;
     MatchRow.mode := meta ≫= Metadata.mode;
     MatchRow.map := meta ≫= Metadata.map;
     MatchRow.player_kills := stats ≫= Stats.kills;
     MatchRow.player_deaths := stats ≫= Stats.deaths;
     MatchRow.player_assists := stats ≫= Stats.assists;
     MatchRow.raw := None |}.

(** The values bound into [INSERT OR REPLACE INTO valorant_player_stats]. *)
Definition statsRowOf (region : Region) (active : ActivePlayer.t)
    (m : Match.t) (matchId : string) : StatsRow.t :=
  let p := findPlayer active m in
  let stats := p ≫= RosterPlayer.stats in
  let economy := p ≫= RosterPlayer.economy in
  let spent := economy ≫= Economy.spent in
  let loadout_value := economy ≫= Economy.loadout_value in
  {| StatsRow.match_id := matchId;
     StatsRow.region := region;
     StatsRow.name := ActivePlayer.name active;
     StatsRow.tag := ActivePlayer.tag active;
     StatsRow.character := p ≫= RosterPlayer.character;
     StatsRow.rank := p ≫= RosterPlayer.currenttier_patched;
     StatsRow.kills := stats ≫= Stats.kills;
     StatsRow.deaths := stats ≫= Stats.deaths;
     StatsRow.assists := stats ≫= Stats.assists;
     StatsRow.bodyshots := stats ≫= Stats.bodyshots;
     StatsRow.headshots := stats ≫= Stats.headshots;
     StatsRow.legshots := stats ≫= Stats.legshots;
     StatsRow.score := stats ≫= Stats.score;
     StatsRow.spent_overall := spent ≫= Money.overall;
     StatsRow.spent_avg := spent ≫= Money.average;
     StatsRow.loadout_overall := loadout_value ≫= Money.overall;
     StatsRow.loadout_avg := loadout_value ≫= Money.average;
     StatsRow.damage_made := p ≫= RosterPlayer.damage_made;
     StatsRow.damage_received := p ≫= RosterPlayer.damage_received |}.

(** The body of the loop for a match that has an id and is not the known
    one: the existence check, the guarded insert with its counter, and the
    upsert of the statistics. *)
Definition ingestMatch (region : Region) (active : ActivePlayer.t)
    (m : Match.t) (matchId : string) (acc : Agent * nat) : Agent * nat :=
  let '(ag, inserted) := acc in
  let c := countById matchId (valorant_matches ag) in
  let '(matches', inserted') :=
    if decide (c = 0)
    then (insertOrIgnore (matchRowOf region active m matchId) (valorant_matches ag),
          S inserted)
    else (valorant_matches ag, inserted) in
  ({| state := state ag;
      valorant_matches := matches';
      valorant_player_stats :=
        insertOrReplace (statsRowOf region active m matchId)
          (valorant_player_stats ag);
      player_cursor := player_cursor ag |},
   inserted').

(** [lastKnownId && matchId === lastKnownId] *)
Definition isKnown (lastKnownId : option string) (matchId : string) : bool :=
  Js.truthy_opt lastKnownId && bool_decide (lastKnownId = Some matchId).

(** [for (const m of matches) { ... }] with its [continue] and [break]. *)
Fixpoint walkMatches (region : Region) (active : ActivePlayer.t)
    (lastKnownId : option string) (ms : list Match.t) (acc : Agent * nat)
  : Agent * nat :=
  match ms with
  | [] => acc
  | m :: rest =>
      match matchIdOf m with
      | None => walkMatches region active lastKnownId rest acc
      | Some matchId =>
          if negb (Js.truthy matchId)
          then walkMatches region active lastKnownId rest acc
          else if isKnown lastKnownId matchId then acc
          else walkMatches region active lastKnownId rest
                 (ingestMatch region active m matchId acc)
      end
  end.

(** [newestId] and [newestStarted], read off [matches[0]]. *)
Definition newestOf (ms : list Match.t) : option string * option string :=
  match ms with
  | [] => (None, None)
  | m0 :: _ => (matchIdOf m0, startedOf (Match.metadata m0))
  end.

(** The region to use, resolved by probing when the identity has none:
    the region, whether it had to be probed, and the regions requested. *)
Definition resolveRegion (up : Upstream) (active : ActivePlayer.t)
  : option Region * list Region :=
  match ActivePlayer.region active with
  | Some r => (Some r, [])
  | None => probeRegions up active 0 REGIONS
  end.

(** [await agent.setState({ ...currentState, activePlayer: { ...active, region } })],
    which runs only when the identity had no region. *)
Definition persistRegion (active : ActivePlayer.t) (region : Region)
    (ag : Agent) : Agent :=
  match ActivePlayer.region active with
  | Some _ => ag
  | None =>
      setState_activePlayer
        {| ActivePlayer.region := Some region;
           ActivePlayer.name := ActivePlayer.name active;
           ActivePlayer.tag := ActivePlayer.tag active |} ag
  end.

(** [if (newestId) { INSERT INTO player_cursor ... ON CONFLICT ... }] *)
Definition advanceCursor (pk : string) (newest : option string * option string)
    (ag : Agent) : Agent :=
  if Js.truthy_opt newest.1
  then {| state := state ag;
          valorant_matches := valorant_matches ag;
          valorant_player_stats := valorant_player_stats ag;
          player_cursor :=
            upsertCursor pk
              {| CursorRow.last_match_id := newest.1;
                 CursorRow.last_started_at := newest.2 |}
              (player_cursor ag) |}
  else ag.

(** The [execute] of [ingestOrRefreshMatches]. *)
Definition ingestOrRefreshMatches (up : Upstream) (ag : Agent) : IngestRun :=
  match activeOf ag with
  | None => {| reply := NoActivePlayerSet; after := ag; requested := [] |}
  | Some active =>
      let '(found, asked) := resolveRegion up active in
      match found with
      | None =>
          {| reply := CouldNotResolveRegion; after := ag; requested := asked |}
      | Some region =>
          let ag1 := persistRegion active region ag in
          let pk := cursorKey region active in
          let lastKnownId :=
            (player_cursor ag1 !! pk) ≫= CursorRow.last_match_id in
          let res := fetchLatestCompetitive up active (length asked) region in
          if negb (FetchResult.ok res)
          then {| reply := HenrikDevError (FetchResult.status res);
                  after := ag1; requested := asked ++ [region] |}
          else
            let matches := FetchResult.data res in
            let '(ag2, inserted) :=
              walkMatches region active lastKnownId matches (ag1, 0) in
            {| reply := Refreshed (ActivePlayer.name active)
                          (ActivePlayer.tag active) region inserted;
               after := advanceCursor pk (newestOf matches) ag2;
               requested := asked ++ [region] |}
      end
  end.

End Ingest.

(** ** Numbers *)

Definition QofN (n : N) : Q := inject_Z (Z.of_N n).

(** Rounding to the nearest integer, a tie going away from zero. *)
Definition roundHalfAway (x : Q) : Z :=
  if Qle_bool 0 x then Qfloor (x + (1 # 2))%Q
  else (- Qfloor (- x + (1 # 2))%Q)%Z.

(** [Number(x.toFixed(2))] on the exact value: the multiple of 1/100
    nearest to [x], in lowest terms, a tie going away from zero. The
    source rounds the binary double that stands for [x], so on a quotient
    that lies half-way between two hundredths (3/40) it may report the
    other neighbour; the properties below that speak of a rounded quotient
    are stated with [roundedTo2], which holds of either neighbour. *)
Definition toFixed2 (x : Q) : Q := Qred (roundHalfAway (x * 100)%Q # 100).

(** The value of a JavaScript expression that may be [Infinity]. *)
Module Number.
Inductive t :=
  | Finite (q : Q)
  | POSITIVE_INFINITY.
End Number.

(** A reported ratio: a number, or the string ["Infinity"]. *)
Inductive Ratio :=
  | RatioNumber (q : Q)
  | RatioInfinity.

(** [arr.reduce((a, b) => a + (b ?? 0), 0)] *)
Definition sumN (arr : list (option N)) : N :=
  foldl (λ a b, (a + default 0 b)%N) 0%N arr.

Definition sumQ (arr : list (option Q)) : Q :=
  foldl (λ a b, (a + default 0 b)%Q) 0%Q arr.

(** ** Queries on the stored projection *)

(** The three tables are created by [ingestOrRefreshMatches] only
    ([CREATE TABLE IF NOT EXISTS], once an active player is found); the
    query tools do not create them, and on an agent that never came that
    far their queries raise [no such table]. An agent here holds the rows
    of the tables, so the query tools are modelled for an agent whose
    tables exist; the replies for an empty window are those of the source
    in that case only. *)

(** [ORDER BY key DESC] by binary string comparison. SQL leaves the order
    of rows with equal keys open; here they stay in scan order. No
    property below depends on that choice. *)
Fixpoint insertDesc {A} (key : A → string) (x : A) (l : list A) : list A :=
  match l with
  | [] => [x]
  | y :: l' =>
      if String.ltb (key x) (key y) then y :: insertDesc key x l'
      else x :: y :: l'
  end.

Definition orderByDesc {A} (key : A → string) (l : list A) : list A :=
  foldr (insertDesc key) [] l.

(** [WHERE name = ${active.name} AND tag = ${active.tag}] *)
Definition whereNameTag (active : ActivePlayer.t) (r : MatchRow.t) : Prop :=
  MatchRow.name r = ActivePlayer.name active
  ∧ MatchRow.tag r = ActivePlayer.tag active.

(** [... AND map = ${map}] *)
Definition whereNameTagMap (active : ActivePlayer.t) (map : string)
    (r : MatchRow.t) : Prop :=
  whereNameTag active r ∧ MatchRow.map r = Some map.

#[global] Instance whereNameTag_dec active r : Decision (whereNameTag active r).
Proof. unfold whereNameTag. apply _. Defined.

#[global] Instance whereNameTagMap_dec active map r :
  Decision (whereNameTagMap active map r).
Proof. unfold whereNameTagMap. apply _. Defined.

(** [COALESCE(started_at, '')] *)
Definition startedKey (r : MatchRow.t) : string :=
  default "" (MatchRow.started_at r).

(** [SELECT ... FROM valorant_matches WHERE ... ORDER BY
     COALESCE(started_at, '') DESC LIMIT n], with the map filter when the
    tool received a non-empty [map]. *)
Definition selectMatches (active : ActivePlayer.t) (map : option string)
    (n : nat) (tbl : list MatchRow.t) : list MatchRow.t :=
  take n
    (orderByDesc startedKey
       (if Js.truthy_opt map
        then filter (whereNameTagMap active (default "" map)) tbl
        else filter (whereNameTag active) tbl)).

(** [FROM valorant_player_stats ps JOIN valorant_matches m
     ON m.id = ps.match_id] *)
Definition joinStats (stats : list StatsRow.t) (matches : list MatchRow.t)
  : list (StatsRow.t * MatchRow.t) :=
  ps ← stats;
  m ← filter (λ m, MatchRow.id m = StatsRow.match_id ps) matches;
  [(ps, m)].

(** [WHERE ps.name = ${active.name} AND ps.tag = ${active.tag}] *)
Definition whereStats (active : ActivePlayer.t)
    (j : StatsRow.t * MatchRow.t) : Prop :=
  StatsRow.name j.1 = ActivePlayer.name active
  ∧ StatsRow.tag j.1 = ActivePlayer.tag active.

(** [... AND m.map = ${map}] *)
Definition whereStatsMap (active : ActivePlayer.t) (map : string)
    (j : StatsRow.t * MatchRow.t) : Prop :=
  whereStats active j ∧ MatchRow.map j.2 = Some map.

#[global] Instance whereStats_dec active j : Decision (whereStats active j).
Proof. unfold whereStats. apply _. Defined.

#[global] Instance whereStatsMap_dec active map j :
  Decision (whereStatsMap active map j).
Proof. unfold whereStatsMap. apply _. Defined.

(** The joined query of [summarizeRecentPerformance]; the columns it
    selects all come from [ps]. *)
Definition selectStats (active : ActivePlayer.t) (map : option string)
    (n : nat) (stats : list StatsRow.t) (matches : list MatchRow.t)
  : list StatsRow.t :=
  fst <$>
  take n
    (orderByDesc (λ j, startedKey j.2)
       (if Js.truthy_opt map
        then filter (whereStatsMap active (default "" map)) (joinStats stats matches)
        else filter (whereStats active) (joinStats stats matches))).

(** ** [queryKDR] *)

Inductive KdrReply :=
  | KdrNoActivePlayer
  | KdrNoStoredMatches
  | KdrResult (matchesConsidered : nat) (map : string) (averageKDR : Ratio).

(** The part of [queryKDR] after the query: from the selected rows, in
    the order returned, to the reply. *)
Definition kdrOfRows (map : option string) (rows : list MatchRow.t) : KdrReply :=
  match rows with
  | [] => KdrNoStoredMatches
  | _ =>
      let ks := (λ r, default 0%N (MatchRow.player_kills r)) <$> rows in
      let ds := (λ r, default 0%N (MatchRow.player_deaths r)) <$> rows in
      let sumK := foldl N.add 0%N ks in
      let sumD := foldl N.add 0%N ds in
      let kdr :=
        if (sumD =? 0)%N
        then if (0 <? sumK)%N then Number.POSITIVE_INFINITY
             else Number.Finite 0
        else Number.Finite (QofN sumK / QofN sumD) in
      KdrResult (length rows) (default "all" map)
        match kdr with
        | Number.Finite q => RatioNumber (toFixed2 q)
        | Number.POSITIVE_INFINITY => RatioInfinity
        end
  end.

(** The [execute] of [queryKDR]. *)
Definition queryKDR (map : option string) (lastN : nat) (ag : Agent) : KdrReply :=
  match activeOf ag with
  | None => KdrNoActivePlayer
  | Some active =>
      kdrOfRows map (selectMatches active map lastN (valorant_matches ag))
  end.

(** ** [summarizeRecentPerformance] *)

Module Averages.
Record t := {
  kills : Q;
  deaths : Q;
  assists : Q;
  kdr : Ratio;
  score : Q;
  damageMade : Q;
  damageReceived : Q;
  headshotRatePct : Q;
  spentOverall : Q;
  spentAvgPerRound : Q;
  loadoutOverall : Q;
  loadoutAvgPerRound : Q
}.
End Averages.

Inductive SummaryReply :=
  | SummaryNoActivePlayer
  | SummaryNoStoredMatches
  | SummaryResult (matchesConsidered : nat) (map : string)
      (averages : Averages.t).

(** The part of [summarizeRecentPerformance] after the query. *)
Definition summaryOfRows (map : option string) (rows : list StatsRow.t)
  : SummaryReply :=
  match rows with
  | [] => SummaryNoStoredMatches
  | _ =>
      let n := length rows in
      let kills := sumN (StatsRow.kills <$> rows) in
      let deaths := sumN (StatsRow.deaths <$> rows) in
      let assists := sumN (StatsRow.assists <$> rows) in
      let headshots := sumN (StatsRow.headshots <$> rows) in
      let bodyshots := sumN (StatsRow.bodyshots <$> rows) in
      let legshots := sumN (StatsRow.legshots <$> rows) in
      let score := sumN (StatsRow.score <$> rows) in
      let damage_made := sumN (StatsRow.damage_made <$> rows) in
      let damage_received := sumN (StatsRow.damage_received <$> rows) in
      let perRow (x : Q) : Q :=
        if (0 <? n)%nat then (x / inject_Z (Z.of_nat n))%Q else 0%Q in
      let avg (x : N) : Q := toFixed2 (perRow (QofN x)) in
      let shotsTotal := (headshots + bodyshots + legshots)%N in
      let hsRate :=
        if (0 <? shotsTotal)%N
        then toFixed2 (QofN headshots / QofN shotsTotal * 100)%Q
        else 0%Q in
      let avgSpentOverall := avg (sumN (StatsRow.spent_overall <$> rows)) in
      let avgSpent := toFixed2 (perRow (sumQ (StatsRow.spent_avg <$> rows))) in
      let avgLoadoutOverall := avg (sumN (StatsRow.loadout_overall <$> rows)) in
      let avgLoadout := toFixed2 (perRow (sumQ (StatsRow.loadout_avg <$> rows))) in
      let kdr :=
        if (deaths =? 0)%N
        then if (0 <? kills)%N then RatioInfinity else RatioNumber 0
        else RatioNumber (toFixed2 (QofN kills / QofN deaths)) in
      SummaryResult n (default "all" map)
        {| Averages.kills := avg kills;
           Averages.deaths := avg deaths;
           Averages.assists := avg assists;
           Averages.kdr := kdr;
           Averages.score := avg score;
           Averages.damageMade := avg damage_made;
           Averages.damageReceived := avg damage_received;
           Averages.headshotRatePct := hsRate;
           Averages.spentOverall := avgSpentOverall;
           Averages.spentAvgPerRound := avgSpent;
           Averages.loadoutOverall := avgLoadoutOverall;
           Averages.loadoutAvgPerRound := avgLoadout |}
  end.

(** The [execute] of [summarizeRecentPerformance]. *)
Definition summarizeRecentPerformance (map : option string) (lastN : nat)
    (ag : Agent) : SummaryReply :=
  match activeOf ag with
  | None => SummaryNoActivePlayer
  | Some active =>
      summaryOfRows map
        (selectStats active map lastN (valorant_player_stats ag)
           (valorant_matches ag))
  end.

(** ** [listRecentMatches] *)

(** One line of the listing: [`${i + 1}. ${started_at ?? "unknown"} •
    ${mode ?? "mode"} • ${map ?? "map"} • id=${id}`], field by field. *)
Module Listed.
Record t := {
  index : nat;
  started_at : string;
  mode : string;
  map : string;
  id : string
}.
End Listed.

Inductive ListReply :=
  | ListNoActivePlayer
  | ListNoStoredMatches
  | ListLines (lines : list Listed.t).

Definition listedOf (i : nat) (r : MatchRow.t) : Listed.t :=
  {| Listed.index := i + 1;
     Listed.started_at := default "unknown" (MatchRow.started_at r);
     Listed.mode := default "mode" (MatchRow.mode r);
     Listed.map := default "map" (MatchRow.map r);
     Listed.id := MatchRow.id r |}.

(** The [execute] of [listRecentMatches]. *)
Definition listRecentMatches (limit : nat) (ag : Agent) : ListReply :=
  match activeOf ag with
  | None => ListNoActivePlayer
  | Some active =>
      match selectMatches active None limit (valorant_matches ag) with
      | [] => ListNoStoredMatches
      | rows => ListLines (imap listedOf rows)
      end
  end.

(** * Vocabulary of the properties *)

(** [occurs c s]: the code unit [c] is somewhere in [s]. *)
Fixpoint occurs (c : ascii) (s : string) : Prop :=
  match s with
  | EmptyString => False
  | String d r => d = c ∨ occurs c r
  end.

#[global] Instance occurs_dec c s : Decision (occurs c s).
Proof. induction s; simpl; apply _. Defined.

(** The inputs the tool rejects: a [riotId] without the delimiter, a
    [riotId] whose name or tag is empty once split, or no [riotId] and not
    both a name and a tag. *)
Inductive rejectedInput (input : SetActiveInput.t) : Prop :=
  | rejected_no_delimiter s :
      SetActiveInput.riotId input = Some s → s ≠ "" →
      ¬ occurs "#" s →
      rejectedInput input
  | rejected_empty_part s n t :
      SetActiveInput.riotId input = Some s → s ≠ "" →
      splitRiotId s = Some (n, t) → n = "" ∨ t = "" →
      rejectedInput input
  | rejected_nothing_provided :
      Js.truthy_opt (SetActiveInput.riotId input) = false →
      Js.truthy_opt (SetActiveInput.name input) = false
      ∨ Js.truthy_opt (SetActiveInput.tag input) = false →
      rejectedInput input.

(** An answer that carries at least one match: what the region probe
    accepts. Every other answer is empty or an error. *)
Definition hasMatches (resp : HttpResponse) : bool :=
  match resp with
  | HttpOk (Some (_ :: _)) => true
  | _ => false
  end.

(** The three tables of an agent are those of another. *)
Definition sameTables (ag ag' : Agent) : Prop :=
  valorant_matches ag' = valorant_matches ag
  ∧ valorant_player_stats ag' = valorant_player_stats ag
  ∧ player_cursor ag' = player_cursor ag.

(** The id under which the loop handles a match: [None] for a match it
    skips because the id is missing or empty. *)
Definition usableId (m : Match.t) : option string :=
  match matchIdOf m with
  | Some i => if Js.truthy i then Some i else None
  | None => None
  end.

(** The ids of the matches of a page, in page order. *)
Definition pageIds (ms : list Match.t) : list string := omap usableId ms.

(** The ids the loop handles before it ends: those that precede the first
    match whose id is the known one. *)
Fixpoint walkedIds (lastKnownId : option string) (ms : list Match.t)
  : list string :=
  match ms with
  | [] => []
  | m :: rest =>
      match usableId m with
      | None => walkedIds lastKnownId rest
      | Some i =>
          if isKnown lastKnownId i then []
          else i :: walkedIds lastKnownId rest
      end
  end.

(** A row of [valorant_matches] stored for a player in a region. *)
Definition storedFor (region : Region) (active : ActivePlayer.t)
    (r : MatchRow.t) : Prop :=
  MatchRow.region r = region
  ∧ MatchRow.name r = ActivePlayer.name active
  ∧ MatchRow.tag r = ActivePlayer.tag active.

(** [SELECT * FROM valorant_player_stats WHERE match_id = matchId] *)
Definition statsById (matchId : string) (tbl : list StatsRow.t)
  : list StatsRow.t :=
  filter (λ r, StatsRow.match_id r = matchId) tbl.

(** [q] is [x] rounded to two decimals: a multiple of 1/100 that is at
    most half a hundredth away from [x]. *)
Definition roundedTo2 (x q : Q) : Prop :=
  (∃ z : Z, (q == z # 100)%Q) ∧ (Qabs (q - x) <= 1 # 200)%Q.

(** The sum of a column over rows, a null counting as 0. *)
Definition totalN {A} (f : A → option N) (rows : list A) : N :=
  foldr (λ r a, (default 0 (f r) + a)%N) 0%N rows.

(** The KDR to report for summed kills [k] and summed deaths [d]:
    undefined (infinite) without deaths but with kills, 0 without deaths
    and without kills, else the quotient rounded to two decimals. *)
Inductive KdrSpec (k d : N) : Ratio → Prop :=
  | kdr_undefined :
      d = 0%N → (0 < k)%N → KdrSpec k d RatioInfinity
  | kdr_zero :
      d = 0%N → k = 0%N → KdrSpec k d (RatioNumber 0)
  | kdr_quotient q :
      d ≠ 0%N →
      roundedTo2 (QofN k / QofN d) q →
      KdrSpec k d (RatioNumber q).

(** ** Properties as the specification states them, which the code does
    not have *)


(** No cross-player bleed as specified: whatever a sync for the active
    player [B] stores, the answers for another player [A], once [A] is
    active again, are those from before the sync. *)
Definition no_cross_player_bleed_as_specified : Prop :=
  ∀ (toISOString : Z → string) up ag A B,
    activeOf ag = Some B →
    ActivePlayer.name A ≠ ActivePlayer.name B
    ∨ ActivePlayer.tag A ≠ ActivePlayer.tag B →
    let ag' := after (ingestOrRefreshMatches toISOString up ag) in
    ∀ map n,
      queryKDR map n (setState_activePlayer A ag')
      = queryKDR map n (setState_activePlayer A ag)
      ∧ summarizeRecentPerformance map n (setState_activePlayer A ag')
        = summarizeRecentPerformance map n (setState_activePlayer A ag).

(** Two identities that differ only in letter case. *)
Definition sameIgnoringCase (A A' : ActivePlayer.t) : Prop :=
  Js.toLowerCase (ActivePlayer.name A) = Js.toLowerCase (ActivePlayer.name A')
  ∧ Js.toLowerCase (ActivePlayer.tag A) = Js.toLowerCase (ActivePlayer.tag A').

(** Case-insensitive identity as specified: the roster lookup and the
    three queries answer alike for identities that differ only in case. *)
Definition case_insensitive_identity_as_specified : Prop :=
  ∀ ag A A',
    sameIgnoringCase A A' →
    (∀ m, findPlayer A m = findPlayer A' m)
    ∧ ∀ map n,
        queryKDR map n (setState_activePlayer A ag)
        = queryKDR map n (setState_activePlayer A' ag)
        ∧ summarizeRecentPerformance map n (setState_activePlayer A ag)
          = summarizeRecentPerformance map n (setState_activePlayer A' ag)
        ∧ listRecentMatches n (setState_activePlayer A ag)
          = listRecentMatches n (setState_activePlayer A' ag).

(** Headshot rate as specified: the reported figure is the quotient
    headshots / (headshots + bodyshots + legshots) of the summed window,
    and 0 when the denominator is 0. *)
Definition headshot_rate_as_specified : Prop :=
  ∀ ag active map lastN,
    activeOf ag = Some active →
    let rows :=
      selectStats active map lastN (valorant_player_stats ag)
        (valorant_matches ag) in
    rows ≠ [] →
    ∃ n mp av,
      summarizeRecentPerformance map lastN ag = SummaryResult n mp av
      ∧ let headshots := totalN StatsRow.headshots rows in
        let shotsTotal :=
          (headshots + totalN StatsRow.bodyshots rows
           + totalN StatsRow.legshots rows)%N in
        (Averages.headshotRatePct av
         == if (shotsTotal =? 0)%N then 0
            else QofN headshots / QofN shotsTotal)%Q.

(** ** Example data *)

Module Example.

(** The matches of the examples carry [game_start_patched], so that no
    date is ever formatted. *)
Definition toISOString (ms : Z) : string := "".

Definition player (name tag : string) (kills deaths headshots bodyshots legshots : N)
  : RosterPlayer.t :=
  {| RosterPlayer.name := Some name;
     RosterPlayer.tag := Some tag;
     RosterPlayer.character := Some "Jett";
     RosterPlayer.currenttier_patched := Some "Gold 2";
     RosterPlayer.stats :=
       Some {| Stats.score := Some 4000%N;
               Stats.kills := Some kills;
               Stats.deaths := Some deaths;
               Stats.assists := Some 3%N;
               Stats.bodyshots := Some bodyshots;
               Stats.headshots := Some headshots;
               Stats.legshots := Some legshots |};
     RosterPlayer.economy := None;
     RosterPlayer.damage_made := Some 2500%N;
     RosterPlayer.damage_received := Some 2000%N |}.

(** Upstream spells the first player with capitals. *)
Definition ollie : RosterPlayer.t := player "Ollie" "Chaos" 10 5 1 1 0.
Definition curry : RosterPlayer.t := player "curry" "XDDDD" 20 8 3 5 2.

(** A match both players took part in. *)
Definition game (matchid : string) : Match.t :=
  {| Match.metadata :=
       Some {| Metadata.matchid := Some matchid;
               Metadata.game_start_patched := Some ("2024 " +:+ matchid);
               Metadata.game_start := None;
               Metadata.map := Some "Ascent";
               Metadata.mode := Some "Competitive" |};
     Match.matchid := None;
     Match.players :=
       Some {| Players.all_players := Some [ollie; curry] |} |}.

(** An upstream that answers every request for [na] with the page and
    every other request with an empty list. *)
Definition serving (page : list Match.t) : Upstream :=
  λ _ r _ _,
    match r with
    | na => HttpOk (Some page)
    | _ => HttpOk (Some [])
    end.

(** An upstream that has matches in [eu] only. *)
Definition onlyEu (page : list Match.t) : Upstream :=
  λ _ r _ _,
    match r with
    | eu => HttpOk (Some page)
    | _ => HttpOk (Some [])
    end.

(** An upstream that is rate limited. *)
Definition failing : Upstream := λ _ _ _ _, HttpError 429.

Definition identity (name tag : string) (region : option Region) : ActivePlayer.t :=
  {| ActivePlayer.region := region;
     ActivePlayer.name := name;
     ActivePlayer.tag := tag |}.

(** [setActivePlayer] with a riotId and a region, then the agent. *)
Definition activate (riotId : string) (region : option Region) (ag : Agent)
  : Agent :=
  (setActivePlayer
     {| SetActiveInput.riotId := Some riotId;
        SetActiveInput.name := None;
        SetActiveInput.tag := None;
        SetActiveInput.region := region |} ag).2.

Definition sync (page : list Match.t) (ag : Agent) : Agent :=
  after (ingestOrRefreshMatches toISOString (serving page) ag).

(** ollie#chaos synced at [M5; M4], curry#XDDDD synced at [M7], and
    ollie#chaos active again. *)
Definition ollieAtM5 : Agent :=
  sync [game "M5"; game "M4"] (activate "ollie#chaos" (Some na) emptyAgent).

Definition curryAtM7 : Agent :=
  sync [game "M7"] (activate "curry#XDDDD" (Some na) ollieAtM5).

Definition ollieAgain : Agent := activate "ollie#chaos" (Some na) curryAtM7.

(** ollie#chaos synced at [M1], then curry#XDDDD made active. *)
Definition ollieAtM1 : Agent :=
  sync [game "M1"] (activate "ollie#chaos" (Some na) emptyAgent).

Definition curryActive : Agent := activate "curry#XDDDD" (Some na) ollieAtM1.

(** A player no roster knows, synced at [M9]: a row without statistics. *)
Definition ghostAtM9 : Agent :=
  sync [game "M9"] (activate "ghost#0000" (Some na) emptyAgent).

End Example.

(** ** Vocabulary of the queries *)

(** The row [a] is not older than the row [b]: its [started_at], the
    empty string when null, is not below that of [b]. *)
Definition notOlder (a b : MatchRow.t) : Prop :=
  String.ltb (startedKey a) (startedKey b) = false.

(** The rows a query for a player keeps: those stored under exactly the
    name and tag of the player and, when the tool got a non-empty [map],
    played on exactly that map. *)
Definition selected (active : ActivePlayer.t) (map : option string)
    (r : MatchRow.t) : Prop :=
  whereNameTag active r ∧ (Js.truthy_opt map = true → MatchRow.map r = map).

#[global] Instance selected_dec active map r : Decision (selected active map r).
Proof. unfold selected. apply _. Defined.

(** The mean of a column over a window, a null counting as 0. *)
Definition meanN (f : StatsRow.t → option N) (rows : list StatsRow.t) : Q :=
  (QofN (totalN f rows) / inject_Z (Z.of_nat (length rows)))%Q.

(** ** Further example data *)

Module MoreExamples.

(** A match payload without any id. *)
Definition nameless : Match.t :=
  {| Match.metadata := None; Match.matchid := None; Match.players := None |}.

(** An upstream whose body has no [data] array. *)
Definition malformed : Upstream := λ _ _ _ _, HttpOk None.

(** [setActivePlayer] with curry#XDDDD and no region. *)
Definition curryInput : SetActiveInput.t :=
  {| SetActiveInput.riotId := Some "curry#XDDDD";
     SetActiveInput.name := None;
     SetActiveInput.tag := None;
     SetActiveInput.region := None |}.

(** The page M8 to M4, newest first. *)
Definition fiveGames : list Match.t :=
  [Example.game "M8"; Example.game "M7"; Example.game "M6";
   Example.game "M5"; Example.game "M4"].

(** ollie#chaos active, region known, nothing stored. *)
Definition ollieFresh : Agent :=
  Example.activate "ollie#chaos" (Some na) emptyAgent.

End MoreExamples.

(** * Properties *)

(** ** Strings *)

Lemma indexOf_None c s : Js.indexOf c s = None ↔ ¬ occurs c s.
Proof.
  induction s as [|d r IH]; simpl; [tauto|].
  destruct (Ascii.eqb_spec d c) as [->|Hne].
  - split; [discriminate | tauto].
  - destruct (Js.indexOf c r).
    + split; [discriminate|]. intros Hn. exfalso. apply Hn. right.
      destruct (decide (occurs c r)) as [|Hno]; [done|].
      by apply IH in Hno.
    + split; [|done]. intros _ [?|?]; [done|]. by apply IH.
Qed.

Lemma occurs_trimStart c s : occurs c (Js.trimStart s) → occurs c s.
Proof.
  induction s as [|d r IH]; simpl; [done|].
  destruct (Js.is_white_space d); simpl; tauto.
Qed.

Lemma occurs_trimEnd c s : occurs c (Js.trimEnd s) → occurs c s.
Proof.
  induction s as [|d r IH]; simpl; [done|].
  destruct (Js.trimEnd r) as [|e r'] eqn:E.
  - destruct (Js.is_white_space d); simpl; tauto.
  - simpl in *. tauto.
Qed.

Lemma occurs_trim c s : occurs c (Js.trim s) → occurs c s.
Proof. intros H. by apply occurs_trimStart, occurs_trimEnd. Qed.

Lemma splitRiotId_None s : ¬ occurs "#" s → splitRiotId s = None.
Proof.
  intros H. unfold splitRiotId.
  assert (Js.indexOf "#" (Js.trim s) = None) as ->; [|done].
  apply indexOf_None. intros Ho. by apply H, occurs_trim.
Qed.

Lemma truthy_true s : Js.truthy s = true ↔ s ≠ "".
Proof.
  unfold Js.truthy. destruct (String.eqb_spec s ""); simpl; split; try done.
Qed.

Example splitRiotId_trims : splitRiotId "  ollie#chaos " = Some ("ollie", "chaos").
Proof. reflexivity. Qed.

Example splitRiotId_first_delimiter : splitRiotId "a#b#c" = Some ("a", "b#c").
Proof. reflexivity. Qed.

Example splitRiotId_empty_name : splitRiotId "#chaos" = Some ("", "chaos").
Proof. reflexivity. Qed.

Example toLowerCase_example : Js.toLowerCase "Ollie#CHAOS" = "ollie#chaos".
Proof. reflexivity. Qed.

(** ** [setActivePlayer] *)

Lemma setActivePlayer_rejection_keeps_agent input ag :
  isRejection (setActivePlayer input ag).1 = true →
  (setActivePlayer input ag).2 = ag.
Proof.
  unfold setActivePlayer.
  destruct (Js.truthy_opt (SetActiveInput.riotId input)).
  - destruct (SetActiveInput.riotId input ≫= splitRiotId) as [[n t]|]; [|done].
    by destruct (negb _ || negb _).
  - by destruct (negb _ || negb _).
Qed.

Lemma setActivePlayer_rejects input ag :
  rejectedInput input → isRejection (setActivePlayer input ag).1 = true.
Proof.
  intros [s Hs Hne Hno | s n t Hs Hne Hsplit Hempty | Hno Hmiss];
    unfold setActivePlayer.
  - rewrite Hs. simpl. apply truthy_true in Hne. rewrite Hne.
    by rewrite splitRiotId_None.
  - rewrite Hs. simpl. apply truthy_true in Hne. rewrite Hne, Hsplit.
    destruct Hempty as [-> | ->]; simpl; [done|].
    by rewrite orb_true_r.
  - rewrite Hno. destruct Hmiss as [-> | ->]; simpl; [done|].
    by rewrite orb_true_r.
Qed.

(** C9. Every rejected input of [setActivePlayer] (a riotId without the
    ['#'] delimiter, an empty name or tag after splitting, or neither a
    riotId nor both a name and a tag) gets one of the two error messages
    and leaves the agent, and so the active player, as it was. *)
Theorem setActivePlayer_rejected_unchanged input ag :
  rejectedInput input →
  (setActiveMessage (setActivePlayer input ag).1
     = "Invalid riotId. Expected format name#tag."
   ∨ setActiveMessage (setActivePlayer input ag).1
     = "Please provide a riotId like name#tag, or both name and tag.")
  ∧ (setActivePlayer input ag).2 = ag
  ∧ activePlayer (state (setActivePlayer input ag).2) = activePlayer (state ag).
Proof.
  intros Hrej.
  pose proof (setActivePlayer_rejects input ag Hrej) as Hr.
  pose proof (setActivePlayer_rejection_keeps_agent input ag Hr) as Hk.
  split; [|split; [done | by rewrite Hk]].
  destruct (setActivePlayer input ag).1; simpl in *; auto. done.
Qed.

(** ** Numbers *)

Lemma Qmake_100 (z : Z) : (z # 100 == inject_Z z * (1 # 100))%Q.
Proof. unfold Qeq, Qmult, inject_Z. simpl. lia. Qed.

Lemma roundHalfAway_near (y : Q) :
  (Qabs (inject_Z (roundHalfAway y) - y) <= 1 # 2)%Q.
Proof.
  unfold roundHalfAway. destruct (Qle_bool 0 y).
  - pose proof (Qfloor_le (y + (1 # 2))) as H1.
    pose proof (Qlt_floor (y + (1 # 2))) as H2.
    rewrite inject_Z_plus in H2. change (inject_Z 1) with 1%Q in H2.
    revert H1 H2. generalize (inject_Z (Qfloor (y + (1 # 2)))). intros f H1 H2.
    apply Qabs_Qle_condition. split; lra.
  - pose proof (Qfloor_le (- y + (1 # 2))) as H1.
    pose proof (Qlt_floor (- y + (1 # 2))) as H2.
    rewrite inject_Z_plus in H2. change (inject_Z 1) with 1%Q in H2.
    rewrite inject_Z_opp.
    revert H1 H2. generalize (inject_Z (Qfloor (- y + (1 # 2)))). intros f H1 H2.
    apply Qabs_Qle_condition. split; lra.
Qed.

(** [toFixed2] rounds to two decimals. *)
Lemma toFixed2_rounded x : roundedTo2 x (toFixed2 x).
Proof.
  unfold roundedTo2, toFixed2. split.
  - exists (roundHalfAway (x * 100)). apply Qred_correct.
  - rewrite Qred_correct, Qmake_100.
    pose proof (roundHalfAway_near (x * 100)) as H.
    apply Qabs_Qle_condition in H as [H1 H2].
    revert H1 H2. generalize (inject_Z (roundHalfAway (x * 100))). intros f H1 H2.
    apply Qabs_Qle_condition. split; lra.
Qed.

Lemma foldl_add_total {A} (f : A → option N) rows : ∀ acc,
  foldl N.add acc ((λ r, default 0%N (f r)) <$> rows) = (acc + totalN f rows)%N.
Proof.
  induction rows as [|r rows IH]; intros acc; simpl; [lia|].
  rewrite IH. lia.
Qed.

Lemma sumN_total {A} (f : A → option N) rows :
  sumN (f <$> rows) = totalN f rows.
Proof.
  unfold sumN.
  assert (∀ acc, foldl (λ a b, (a + default 0 b)%N) acc (f <$> rows)
                 = (acc + totalN f rows)%N) as H; [|by rewrite H].
  induction rows as [|r rows IH]; intros acc; simpl; [lia|].
  rewrite IH. lia.
Qed.

Example toFixed2_third : toFixed2 (1 # 3) = (33 # 100)%Q.
Proof. reflexivity. Qed.

Example toFixed2_tie : toFixed2 (1 # 8) = (13 # 100)%Q.
Proof. reflexivity. Qed.

Example toFixed2_whole : toFixed2 (10 # 5) = 2%Q.
Proof. reflexivity. Qed.

(** The two ways the tools compute the ratio meet the specification. *)
Lemma kdr_of_queryKDR (k d : N) :
  KdrSpec k d
    match (if (d =? 0)%N
           then if (0 <? k)%N then Number.POSITIVE_INFINITY else Number.Finite 0
           else Number.Finite (QofN k / QofN d)) with
    | Number.Finite q => RatioNumber (toFixed2 q)
    | Number.POSITIVE_INFINITY => RatioInfinity
    end.
Proof.
  destruct (N.eqb_spec d 0) as [->|Hd].
  - destruct (N.ltb_spec 0 k) as [Hk|Hk].
    + by apply kdr_undefined.
    + change (toFixed2 0) with 0%Q. apply kdr_zero; [done | lia].
  - apply kdr_quotient; [done | apply toFixed2_rounded].
Qed.

Lemma kdr_of_summary (k d : N) :
  KdrSpec k d
    (if (d =? 0)%N
     then if (0 <? k)%N then RatioInfinity else RatioNumber 0
     else RatioNumber (toFixed2 (QofN k / QofN d))).
Proof.
  destruct (N.eqb_spec d 0) as [->|Hd].
  - destruct (N.ltb_spec 0 k) as [Hk|Hk].
    + by apply kdr_undefined.
    + apply kdr_zero; [done | lia].
  - apply kdr_quotient; [done | apply toFixed2_rounded].
Qed.

(** The reply of [queryKDR] for a window that is not empty. *)
Lemma kdrOfRows_nonempty map rows :
  rows ≠ [] →
  ∃ v,
    kdrOfRows map rows = KdrResult (length rows) (default "all" map) v
    ∧ KdrSpec (totalN MatchRow.player_kills rows)
        (totalN MatchRow.player_deaths rows) v.
Proof.
  intros Hne. destruct rows as [|r rows]; [done|].
  unfold kdrOfRows.
  rewrite !(foldl_add_total _ (r :: rows) 0%N), !N.add_0_l.
  eexists. split; [done|]. apply kdr_of_queryKDR.
Qed.

(** The reply of [summarizeRecentPerformance] for a window that is not
    empty: its size, its ratio and its headshot rate. *)
Lemma summaryOfRows_nonempty map rows :
  rows ≠ [] →
  ∃ av,
    summaryOfRows map rows = SummaryResult (length rows) (default "all" map) av
    ∧ KdrSpec (totalN StatsRow.kills rows) (totalN StatsRow.deaths rows)
        (Averages.kdr av)
    ∧ Averages.headshotRatePct av
      = let headshots := totalN StatsRow.headshots rows in
        let shotsTotal :=
          (headshots + totalN StatsRow.bodyshots rows
           + totalN StatsRow.legshots rows)%N in
        if (0 <? shotsTotal)%N
        then toFixed2 (QofN headshots / QofN shotsTotal * 100)%Q
        else 0%Q.
Proof.
  intros Hne. destruct rows as [|r rows]; [done|].
  unfold summaryOfRows. rewrite !sumN_total.
  eexists. split; [done|]. cbn [Averages.kdr Averages.headshotRatePct].
  split; [apply kdr_of_summary | done].
Qed.

(** ** Queries *)

Lemma insertDesc_elem {A} (key : A → string) x y l :
  y ∈ insertDesc key x l ↔ y = x ∨ y ∈ l.
Proof.
  induction l as [|z l IH]; simpl.
  - rewrite list_elem_of_singleton.
    split; [by left | intros [?|?%elem_of_nil]; done].
  - destruct (String.ltb (key x) (key z)).
    + rewrite !elem_of_cons, IH. tauto.
    + rewrite !elem_of_cons. tauto.
Qed.

Lemma orderByDesc_elem {A} (key : A → string) y l :
  y ∈ orderByDesc key l ↔ y ∈ l.
Proof.
  unfold orderByDesc. induction l as [|x l IH]; simpl; [done|].
  rewrite insertDesc_elem, elem_of_cons, IH. tauto.
Qed.

Lemma filter_none {A} (P : A → Prop) `{!∀ x, Decision (P x)} (l : list A) :
  Forall (λ x, ¬ P x) l → filter P l = [].
Proof.
  induction 1 as [|x l Hx _ IH]; [done|].
  by rewrite filter_cons, decide_False.
Qed.

(** The rows a query on [valorant_matches] returns are rows of the table
    whose name and tag are exactly those of the active player. *)
Lemma selectMatches_exact active map n tbl r :
  r ∈ selectMatches active map n tbl →
  r ∈ tbl
  ∧ MatchRow.name r = ActivePlayer.name active
  ∧ MatchRow.tag r = ActivePlayer.tag active.
Proof.
  unfold selectMatches. intros Hr%subseteq_take%orderByDesc_elem.
  destruct (Js.truthy_opt map).
  - apply list_elem_of_filter in Hr as [[[? ?] _] ?]. done.
  - apply list_elem_of_filter in Hr as [[? ?] ?]. done.
Qed.

(** Rows stored under another name or tag do not change the answer. *)
Lemma selectMatches_app_other active map n tbl new :
  Forall (λ r, ¬ whereNameTag active r) new →
  selectMatches active map n (tbl ++ new) = selectMatches active map n tbl.
Proof.
  intros Hnew. unfold selectMatches. rewrite !filter_app.
  rewrite (filter_none (whereNameTag active) new Hnew).
  rewrite (filter_none (whereNameTagMap active (default "" map)) new).
  - by rewrite !app_nil_r.
  - eapply Forall_impl; [done|]. intros r Hr [? _]. done.
Qed.

Lemma joinStats_elem stats matches ps m :
  (ps, m) ∈ joinStats stats matches
  ↔ ps ∈ stats ∧ m ∈ matches ∧ MatchRow.id m = StatsRow.match_id ps.
Proof.
  unfold joinStats. rewrite list_elem_of_bind. split.
  - intros (ps' & Hin & Hps). apply list_elem_of_bind in Hin as (m' & Hin & Hm).
    apply list_elem_of_singleton in Hin as [= -> ->].
    apply list_elem_of_filter in Hm as [? ?]. done.
  - intros (Hps & Hm & Hid). exists ps. split; [|done].
    apply list_elem_of_bind. exists m. split; [by apply list_elem_of_singleton|].
    by apply list_elem_of_filter.
Qed.

(** The rows the joined query returns are rows of [valorant_player_stats]
    whose name and tag are exactly those of the active player and whose
    match has a row in [valorant_matches]. *)
Lemma selectStats_exact active map n stats matches ps :
  ps ∈ selectStats active map n stats matches →
  ps ∈ stats
  ∧ StatsRow.name ps = ActivePlayer.name active
  ∧ StatsRow.tag ps = ActivePlayer.tag active
  ∧ StatsRow.match_id ps ∈ MatchRow.id <$> matches.
Proof.
  unfold selectStats. intros ([ps' m] & -> & Hr)%list_elem_of_fmap.
  apply subseteq_take, orderByDesc_elem in Hr. simpl.
  assert (whereStats active (ps', m) ∧ (ps', m) ∈ joinStats stats matches)
    as [[? ?] (? & ? & Hid)%joinStats_elem].
  { destruct (Js.truthy_opt map);
      apply list_elem_of_filter in Hr as [Hw ?]; [destruct Hw|]; done. }
  split_and!; try done. rewrite <- Hid. by apply list_elem_of_fmap_2.
Qed.

(** ** The region probe *)

Lemma fetch_accepts up active n r :
  FetchResult.ok (fetchLatestCompetitive up active n r)
  && (0 <? length (FetchResult.data (fetchLatestCompetitive up active n r)))%nat
  = hasMatches (up n r (ActivePlayer.name active) (ActivePlayer.tag active)).
Proof.
  unfold fetchLatestCompetitive.
  destruct (up n r _ _) as [st|[[|m ms]|]]; done.
Qed.

Lemma probeRegions_found up active pre r post : ∀ n,
  (∀ i c, pre !! i = Some c →
     hasMatches (up (n + i) c (ActivePlayer.name active) (ActivePlayer.tag active))
     = false) →
  hasMatches (up (n + length pre) r (ActivePlayer.name active)
                (ActivePlayer.tag active)) = true →
  probeRegions up active n (pre ++ r :: post) = (Some r, pre ++ [r]).
Proof.
  induction pre as [|c pre IH]; intros n Hpre Hr; simpl.
  - rewrite fetch_accepts. rewrite Nat.add_0_r in Hr. by rewrite Hr.
  - rewrite fetch_accepts.
    pose proof (Hpre 0 c eq_refl) as H0. rewrite Nat.add_0_r in H0.
    rewrite H0. rewrite (IH (S n)); [done| |].
    + intros i c' Hi. specialize (Hpre (S i) c' Hi).
      by replace (S n + i) with (n + S i) by lia.
    + simpl in Hr. by replace (S n + length pre) with (n + S (length pre)) by lia.
Qed.

Lemma probeRegions_none up active rs : ∀ n,
  (∀ i c, rs !! i = Some c →
     hasMatches (up (n + i) c (ActivePlayer.name active) (ActivePlayer.tag active))
     = false) →
  probeRegions up active n rs = (None, rs).
Proof.
  induction rs as [|c rs IH]; intros n Hrs; simpl; [done|].
  rewrite fetch_accepts.
  pose proof (Hrs 0 c eq_refl) as H0. rewrite Nat.add_0_r in H0.
  rewrite H0. rewrite (IH (S n)); [done|].
  intros i c' Hi. specialize (Hrs (S i) c' Hi).
  by replace (S n + i) with (n + S i) by lia.
Qed.

(** ** The loop over the fetched page *)

Section IngestLemmas.

Variable toISOString : Z → string.


Lemma ingestMatch_state region active m i acc :
  state (ingestMatch toISOString region active m i acc).1 = state acc.1
  ∧ player_cursor (ingestMatch toISOString region active m i acc).1 = player_cursor acc.1.
Proof.
  destruct acc as [ag n]. unfold ingestMatch.
  by destruct (decide _).
Qed.

Lemma walkMatches_state region active known ms : ∀ acc,
  state (walkMatches toISOString region active known ms acc).1 = state acc.1
  ∧ player_cursor (walkMatches toISOString region active known ms acc).1 = player_cursor acc.1.
Proof.
  induction ms as [|m ms IH]; intros acc; simpl; [done|].
  destruct (matchIdOf m) as [i|]; [|apply IH].
  destruct (negb (Js.truthy i)); [apply IH|].
  destruct (isKnown known i); [done|].
  destruct (IH (ingestMatch toISOString region active m i acc)) as [-> ->].
  apply ingestMatch_state.
Qed.

Lemma countById_app matchId tbl row :
  countById matchId (tbl ++ [row])
  = countById matchId tbl + (if decide (MatchRow.id row = matchId) then 1 else 0).
Proof.
  unfold countById. rewrite filter_app, length_app. f_equal.
  rewrite filter_cons, filter_nil. by destruct (decide _).
Qed.

Lemma countById_le matchId tbl new :
  countById matchId tbl ≤ countById matchId (tbl ++ new).
Proof. unfold countById. rewrite filter_app, length_app. lia. Qed.

Lemma countById_elem matchId tbl :
  countById matchId tbl ≠ 0 ↔ matchId ∈ MatchRow.id <$> tbl.
Proof.
  unfold countById. induction tbl as [|r tbl IH].
  - split; [done | by intros ?%elem_of_nil].
  - rewrite filter_cons, fmap_cons, elem_of_cons.
    destruct (decide (MatchRow.id r = matchId)) as [<-|Hne]; simpl.
    + split; [auto | lia].
    + rewrite IH. split; [auto | by intros [?|?]].
Qed.

Lemma usableId_Some m i :
  usableId m = Some i ↔ matchIdOf m = Some i ∧ Js.truthy i = true.
Proof.
  unfold usableId. destruct (matchIdOf m) as [j|].
  - destruct (Js.truthy j) eqn:E.
    + split; [by intros [= ->] | by intros [[= ->] _]].
    + split; [done | intros [[= ->] ?]; congruence].
  - split; [done | by intros [? _]].
Qed.

(** The loop read through [usableId]. *)
Lemma walkMatches_cons region active known m rest acc :
  walkMatches toISOString region active known (m :: rest) acc
  = match usableId m with
    | None => walkMatches toISOString region active known rest acc
    | Some i =>
        if isKnown known i then acc
        else walkMatches toISOString region active known rest
               (ingestMatch toISOString region active m i acc)
    end.
Proof.
  simpl. unfold usableId. destruct (matchIdOf m) as [i|]; [|done].
  by destruct (Js.truthy i).
Qed.

Lemma ingestMatch_new region active m i ag n :
  countById i (valorant_matches ag) = 0 →
  valorant_matches (ingestMatch toISOString region active m i (ag, n)).1
  = valorant_matches ag ++ [matchRowOf toISOString region active m i]
  ∧ (ingestMatch toISOString region active m i (ag, n)).2 = S n.
Proof.
  intros Hc. unfold ingestMatch, insertOrIgnore. simpl. rewrite Hc. simpl. done.
Qed.

Lemma ingestMatch_old region active m i ag n :
  countById i (valorant_matches ag) ≠ 0 →
  valorant_matches (ingestMatch toISOString region active m i (ag, n)).1
  = valorant_matches ag
  ∧ (ingestMatch toISOString region active m i (ag, n)).2 = n.
Proof.
  intros Hc. unfold ingestMatch. by destruct (decide _).
Qed.

(** What the loop does to [valorant_matches]: it appends rows, one for
    each id it handles that the table did not hold, all stored for the
    active player, and counts them. *)
Lemma walkMatches_rows region active known ms : ∀ ag n,
  ∃ new,
    valorant_matches (walkMatches toISOString region active known ms (ag, n)).1
    = valorant_matches ag ++ new
    ∧ (walkMatches toISOString region active known ms (ag, n)).2 = n + length new
    ∧ Forall (storedFor region active) new
    ∧ NoDup (MatchRow.id <$> new)
    ∧ ∀ i, i ∈ MatchRow.id <$> new
           ↔ i ∈ walkedIds known ms ∧ countById i (valorant_matches ag) = 0.
Proof.
  assert (∀ ag n ids,
    ids = [] →
    ∃ new : list MatchRow.t,
      valorant_matches ag = valorant_matches ag ++ new
      ∧ n = n + length new
      ∧ Forall (storedFor region active) new
      ∧ NoDup (MatchRow.id <$> new)
      ∧ ∀ i, i ∈ MatchRow.id <$> new
             ↔ i ∈ ids ∧ countById i (valorant_matches ag) = 0) as Hstop.
  { intros ag n ids ->. exists []. rewrite app_nil_r. simpl.
    split_and!; [done | lia | constructor | constructor |].
    intros i. split; [by intros ?%elem_of_nil | by intros [?%elem_of_nil _]]. }
  induction ms as [|m ms IH]; intros ag n.
  - by apply Hstop.
  - rewrite walkMatches_cons. cbn [walkedIds].
    destruct (usableId m) as [i|]; [|apply IH].
    destruct (isKnown known i); [by apply Hstop|].
    destruct (ingestMatch toISOString region active m i (ag, n)) as [ag' n'] eqn:Hi.
    destruct (decide (countById i (valorant_matches ag) = 0)) as [Hc|Hc].
    + destruct (ingestMatch_new region active m i ag n Hc) as [Hm Hn].
      rewrite Hi in Hm, Hn. simpl in Hm, Hn. subst n'.
      destruct (IH ag' (S n)) as (new & H1 & H2 & H3 & H4 & H5).
      exists (matchRowOf toISOString region active m i :: new).
      rewrite H1, H2, Hm, <- app_assoc. simpl.
      assert (∀ j, j ∈ MatchRow.id <$> new ↔
                j ∈ walkedIds known ms
                ∧ countById j (valorant_matches ag) = 0 ∧ j ≠ i) as H5'.
      { intros j. rewrite H5, Hm, countById_app. simpl.
        destruct (decide (i = j)) as [->|Hne].
        - split; [lia | by intros (_ & _ & ?)].
        - rewrite Nat.add_0_r. split; [by intros [? ?] | by intros (? & ? & _)]. }
      split_and!; [done | lia | by constructor | |].
      * constructor; [|done]. rewrite H5'. by intros (_ & _ & ?).
      * intros j. rewrite !elem_of_cons, H5'. split.
        -- intros [->|(? & ? & _)]; [split; [by left | done] | split; [by right | done]].
        -- intros [[->|?] ?]; [by left|].
           destruct (decide (j = i)); [by left | by right].
    + destruct (ingestMatch_old region active m i ag n Hc) as [Hm Hn].
      rewrite Hi in Hm, Hn. simpl in Hm, Hn. subst n'.
      destruct (IH ag' n) as (new & H1 & H2 & H3 & H4 & H5).
      exists new. rewrite H1, H2, Hm. split_and!; try done.
      intros j. rewrite H5, Hm, elem_of_cons. split.
      * intros [? ?]. split; [by right | done].
      * intros [[->|?] ?]; done.
Qed.

Lemma persistRegion_tables active region ag :
  sameTables ag (persistRegion active region ag).
Proof. unfold persistRegion. by destruct (ActivePlayer.region active). Qed.

Lemma persistRegion_cursor active region ag :
  player_cursor (persistRegion active region ag) = player_cursor ag.
Proof. apply persistRegion_tables. Qed.

Lemma advanceCursor_state pk newest ag :
  state (advanceCursor pk newest ag) = state ag
  ∧ valorant_matches (advanceCursor pk newest ag) = valorant_matches ag
  ∧ valorant_player_stats (advanceCursor pk newest ag) = valorant_player_stats ag.
Proof. unfold advanceCursor. by destruct (Js.truthy_opt _). Qed.

Lemma activeOf_Some ag active :
  activeOf ag = Some active →
  activePlayer (state ag) = Some active
  ∧ Js.truthy (ActivePlayer.name active) = true
  ∧ Js.truthy (ActivePlayer.tag active) = true.
Proof.
  unfold activeOf. destruct (activePlayer (state ag)) as [a|]; [|done].
  destruct (Js.truthy (ActivePlayer.name a)) eqn:Hn,
           (Js.truthy (ActivePlayer.tag a)) eqn:Ht;
    simpl; intros; by simplify_eq.
Qed.

Lemma walkMatches_no_insert region active known ms ag n :
  (∀ i, i ∈ walkedIds known ms → countById i (valorant_matches ag) ≠ 0) →
  valorant_matches (walkMatches toISOString region active known ms (ag, n)).1
  = valorant_matches ag
  ∧ (walkMatches toISOString region active known ms (ag, n)).2 = n.
Proof.
  intros Hall.
  destruct (walkMatches_rows region active known ms ag n)
    as (new & H1 & H2 & _ & _ & H5).
  destruct new as [|r new].
  - rewrite H1, H2, app_nil_r. simpl. split; [done | lia].
  - destruct (H5 (MatchRow.id r)) as [Hin _].
    destruct Hin as [Hw Hc]; [rewrite fmap_cons; by left|].
    by apply Hall in Hw.
Qed.

Lemma walkMatches_stored region active known ms ag n i :
  i ∈ walkedIds known ms →
  countById i
    (valorant_matches (walkMatches toISOString region active known ms (ag, n)).1)
  ≠ 0.
Proof.
  intros Hw.
  destruct (walkMatches_rows region active known ms ag n)
    as (new & H1 & _ & _ & _ & H5).
  rewrite H1.
  destruct (decide (countById i (valorant_matches ag) = 0)) as [Hc|Hc].
  - apply countById_elem. rewrite fmap_app, elem_of_app. right.
    by apply H5.
  - pose proof (countById_le i (valorant_matches ag) new). lia.
Qed.

Lemma walkedIds_newest ms i :
  (newestOf toISOString ms).1 = Some i → Js.truthy i = true →
  walkedIds (Some i) ms = [].
Proof.
  destruct ms as [|m0 ms]; [done|]. simpl. intros Hid Ht.
  assert (usableId m0 = Some i) as -> by by apply usableId_Some.
  unfold isKnown. simpl. rewrite Ht. by rewrite bool_decide_eq_true_2.
Qed.

Lemma activeOf_state ag ag' : state ag' = state ag → activeOf ag' = activeOf ag.
Proof. unfold activeOf. by intros ->. Qed.

(** The active player once the region is settled. *)
Lemma activeOf_persistRegion up ag active region asked :
  activeOf ag = Some active →
  resolveRegion up active = (Some region, asked) →
  ∃ active',
    activeOf (persistRegion active region ag) = Some active'
    ∧ ActivePlayer.region active' = Some region
    ∧ ActivePlayer.name active' = ActivePlayer.name active
    ∧ ActivePlayer.tag active' = ActivePlayer.tag active.
Proof.
  intros Hact Hres. unfold resolveRegion, persistRegion in *.
  destruct (ActivePlayer.region active) as [r0|] eqn:Hr.
  - injection Hres as <- <-. by exists active.
  - apply activeOf_Some in Hact as (_ & Hn & Ht).
    exists {| ActivePlayer.region := Some region;
              ActivePlayer.name := ActivePlayer.name active;
              ActivePlayer.tag := ActivePlayer.tag active |}.
    split; [|done]. unfold activeOf. simpl. by rewrite Hn, Ht.
Qed.

Lemma cursorKey_ext region a a' :
  ActivePlayer.name a' = ActivePlayer.name a →
  ActivePlayer.tag a' = ActivePlayer.tag a →
  cursorKey region a' = cursorKey region a.
Proof. unfold cursorKey. by intros -> ->. Qed.

Lemma fetchLatestCompetitive_ext up up' a a' n n' region :
  ActivePlayer.name a' = ActivePlayer.name a →
  ActivePlayer.tag a' = ActivePlayer.tag a →
  up' n' region (ActivePlayer.name a) (ActivePlayer.tag a)
  = up n region (ActivePlayer.name a) (ActivePlayer.tag a) →
  fetchLatestCompetitive up' a' n' region = fetchLatestCompetitive up a n region.
Proof. unfold fetchLatestCompetitive. by intros -> -> ->. Qed.

(** A call for a player whose region is known: no probe, one request. *)
Lemma ingest_known_region up ag active region :
  activeOf ag = Some active →
  ActivePlayer.region active = Some region →
  ingestOrRefreshMatches toISOString up ag
  = let pk := cursorKey region active in
    let res := fetchLatestCompetitive up active 0 region in
    if negb (FetchResult.ok res)
    then {| reply := HenrikDevError (FetchResult.status res);
            after := ag; requested := [region] |}
    else
      {| reply := Refreshed (ActivePlayer.name active) (ActivePlayer.tag active)
                    region
                    (walkMatches toISOString region active
                       ((player_cursor ag !! pk) ≫= CursorRow.last_match_id)
                       (FetchResult.data res) (ag, 0)).2;
         after := advanceCursor pk (newestOf toISOString (FetchResult.data res))
                    (walkMatches toISOString region active
                       ((player_cursor ag !! pk) ≫= CursorRow.last_match_id)
                       (FetchResult.data res) (ag, 0)).1;
         requested := [region] |}.
Proof.
  intros Hact Hr. unfold ingestOrRefreshMatches, resolveRegion, persistRegion.
  rewrite Hact, Hr. simpl.
  destruct (negb _); [done|]. by destruct (walkMatches _ _ _ _ _ _).
Qed.

(** A call that resolves a region, in terms of the agent on which the
    region has been stored. *)
Lemma ingest_resolved up ag active region asked :
  activeOf ag = Some active →
  resolveRegion up active = (Some region, asked) →
  ingestOrRefreshMatches toISOString up ag
  = let ag1 := persistRegion active region ag in
    let pk := cursorKey region active in
    let res := fetchLatestCompetitive up active (length asked) region in
    if negb (FetchResult.ok res)
    then {| reply := HenrikDevError (FetchResult.status res);
            after := ag1; requested := asked ++ [region] |}
    else
      {| reply := Refreshed (ActivePlayer.name active) (ActivePlayer.tag active)
                    region
                    (walkMatches toISOString region active
                       ((player_cursor ag1 !! pk) ≫= CursorRow.last_match_id)
                       (FetchResult.data res) (ag1, 0)).2;
         after := advanceCursor pk (newestOf toISOString (FetchResult.data res))
                    (walkMatches toISOString region active
                       ((player_cursor ag1 !! pk) ≫= CursorRow.last_match_id)
                       (FetchResult.data res) (ag1, 0)).1;
         requested := asked ++ [region] |}.
Proof.
  intros Hact Hres. unfold ingestOrRefreshMatches.
  rewrite Hact, Hres. simpl.
  destruct (negb _); [done|]. by destruct (walkMatches _ _ _ _ _ _).
Qed.

(** The loop only reads the name and the tag of the active player. *)
Lemma walkMatches_ext region a a' known ms : ∀ acc,
  ActivePlayer.name a' = ActivePlayer.name a →
  ActivePlayer.tag a' = ActivePlayer.tag a →
  walkMatches toISOString region a' known ms acc
  = walkMatches toISOString region a known ms acc.
Proof.
  intros acc Hn Ht. revert acc.
  assert (∀ m, findPlayer a' m = findPlayer a m) as Hfind.
  { intros m. unfold findPlayer. f_equal. unfold isActivePlayer.
    by rewrite Hn, Ht. }
  induction ms as [|m ms IH]; intros acc; [done|].
  rewrite !walkMatches_cons. destruct (usableId m) as [i|]; [|apply IH].
  destruct (isKnown known i); [done|]. rewrite IH. f_equal.
  destruct acc as [ag n]. unfold ingestMatch, matchRowOf, statsRowOf.
  by rewrite Hfind, Hn, Ht.
Qed.

(** What the loop does to [valorant_player_stats]: the row of an id it
    does not handle stays, the row of an id it handles is the projection
    of a match of the page with that id. *)
Lemma statsById_insertOrReplace i row tbl :
  statsById i (insertOrReplace row tbl)
  = if decide (StatsRow.match_id row = i) then [row] else statsById i tbl.
Proof.
  unfold statsById, insertOrReplace. rewrite filter_app, filter_cons, filter_nil.
  destruct (decide (StatsRow.match_id row = i)) as [<-|Hne].
  - replace (filter _ (filter _ tbl)) with (@nil StatsRow.t); [done|].
    induction tbl as [|r tbl IH]; [done|].
    rewrite filter_cons. destruct (decide (StatsRow.match_id r ≠ _)) as [Hn|Hn].
    + rewrite filter_cons. destruct (decide _); [done | apply IH].
    + apply IH.
  - rewrite app_nil_r. induction tbl as [|r tbl IH]; [done|].
    rewrite !filter_cons.
    destruct (decide (StatsRow.match_id r ≠ StatsRow.match_id row)) as [Hn|Hn].
    + rewrite filter_cons. destruct (decide _); by rewrite IH.
    + apply dec_stable in Hn. rewrite decide_False by congruence. apply IH.
Qed.

Lemma ingestMatch_stats region active m i ag n :
  valorant_player_stats (ingestMatch toISOString region active m i (ag, n)).1
  = insertOrReplace (statsRowOf region active m i) (valorant_player_stats ag).
Proof. unfold ingestMatch. by destruct (decide _). Qed.

Lemma walkMatches_stats region active known ms : ∀ ag n i,
  (i ∉ walkedIds known ms →
   statsById i
     (valorant_player_stats
        (walkMatches toISOString region active known ms (ag, n)).1)
   = statsById i (valorant_player_stats ag))
  ∧ (i ∈ walkedIds known ms →
     ∃ m, m ∈ ms ∧ usableId m = Some i
          ∧ statsById i
              (valorant_player_stats
                 (walkMatches toISOString region active known ms (ag, n)).1)
            = [statsRowOf region active m i]).
Proof.
  induction ms as [|m ms IH]; intros ag n i.
  - split; [done | by intros ?%elem_of_nil].
  - rewrite walkMatches_cons. cbn [walkedIds].
    destruct (usableId m) as [j|] eqn:Hj.
    2:{ destruct (IH ag n i) as [IH1 IH2]. split; [done|].
        intros Hin. destruct (IH2 Hin) as (m' & ? & ? & ?).
        exists m'. split; [by right | done]. }
    destruct (isKnown known j).
    { split; [done | by intros ?%elem_of_nil]. }
    destruct (ingestMatch toISOString region active m j (ag, n)) as [ag' n'] eqn:Hi.
    pose proof (ingestMatch_stats region active m j ag n) as Hs.
    rewrite Hi in Hs. simpl in Hs.
    destruct (IH ag' n' i) as [IH1 IH2].
    destruct (decide (i ∈ walkedIds known ms)) as [Hin|Hnin].
    + destruct (IH2 Hin) as (m' & ? & ? & ?).
      split; [intros Hn; exfalso; apply Hn; by right|].
      intros _. exists m'. split; [by right | done].
    + rewrite (IH1 Hnin), Hs, statsById_insertOrReplace. simpl.
      split.
      * intros Hn. rewrite decide_False; [done|].
        intros ->. apply Hn. by left.
      * intros [->|?]%elem_of_cons; [|done].
        exists m. rewrite decide_True by done. split; [by left | done].
Qed.

(** ** Upstream failure and region resolution *)

(** C4. When the fetch that follows region resolution answers with a
    non-success status, the sync returns the explicit error reply that
    carries the status (not a success with zero matches) and leaves the
    three tables as they were: no row is inserted and the cursor is neither
    created nor advanced. *)
Theorem upstream_failure_aborts up ag active region asked st :
  activeOf ag = Some active →
  resolveRegion up active = (Some region, asked) →
  up (length asked) region (ActivePlayer.name active) (ActivePlayer.tag active)
    = HttpError st →
  let run := ingestOrRefreshMatches toISOString up ag in
  reply run = HenrikDevError st
  ∧ ingestMessage (reply run) = "HenrikDev error: " +:+ pretty st
  ∧ insertedCount (reply run) = 0
  ∧ sameTables ag (after run).
Proof.
  intros Hact Hres Hup run. subst run. unfold ingestOrRefreshMatches.
  rewrite Hact, Hres. unfold fetchLatestCompetitive. rewrite Hup. simpl.
  split_and!; try done. apply persistRegion_tables.
Qed.

(** C5. For an identity without a region the sync probes the candidates
    [na, eu, ap, kr, latam, br] in that order, one request each. At the
    first candidate whose answer carries matches it stops: the requests of
    the call are the candidates up to that one and then the page request
    for that same region, the region is stored on the active player, and
    the reply is for that region. When no candidate answers with matches
    the call fails with the resolution error after one request per
    candidate, and the agent, its active player included, is unchanged. *)
Theorem region_probe_order up ag active :
  activeOf ag = Some active →
  ActivePlayer.region active = None →
  let run := ingestOrRefreshMatches toISOString up ag in
  let answer n c :=
    up n c (ActivePlayer.name active) (ActivePlayer.tag active) in
  (∀ pre r post,
     REGIONS = pre ++ r :: post →
     (∀ i c, pre !! i = Some c → hasMatches (answer i c) = false) →
     hasMatches (answer (length pre) r) = true →
     requested run = pre ++ [r; r]
     ∧ activePlayer (state (after run))
       = Some {| ActivePlayer.region := Some r;
                 ActivePlayer.name := ActivePlayer.name active;
                 ActivePlayer.tag := ActivePlayer.tag active |}
     ∧ ((∃ st, reply run = HenrikDevError st)
        ∨ (∃ n, reply run
                = Refreshed (ActivePlayer.name active)
                    (ActivePlayer.tag active) r n)))
  ∧ ((∀ i c, REGIONS !! i = Some c → hasMatches (answer i c) = false) →
     reply run = CouldNotResolveRegion
     ∧ requested run = REGIONS
     ∧ after run = ag).
Proof.
  intros Hact Hnone run answer. subst run answer. split.
  - intros pre r post Hsplit Hpre Hr.
    assert (resolveRegion up active = (Some r, pre ++ [r])) as Hres.
    { unfold resolveRegion. rewrite Hnone, Hsplit.
      by apply (probeRegions_found up active pre r post 0). }
    rewrite (ingest_resolved up ag active r (pre ++ [r]) Hact Hres). cbv zeta.
    assert (activePlayer (state (persistRegion active r ag))
            = Some {| ActivePlayer.region := Some r;
                      ActivePlayer.name := ActivePlayer.name active;
                      ActivePlayer.tag := ActivePlayer.tag active |}) as Hst.
    { unfold persistRegion. by rewrite Hnone. }
    destruct (negb (FetchResult.ok _)); cbn [requested after reply].
    + split_and!; [by rewrite <- app_assoc | done | eauto].
    + split_and!; [by rewrite <- app_assoc | | eauto].
      destruct (advanceCursor_state (cursorKey r active)
                  (newestOf toISOString
                     (FetchResult.data
                        (fetchLatestCompetitive up active (length (pre ++ [r])) r)))
                  (walkMatches toISOString r active
                     ((player_cursor (persistRegion active r ag)
                         !! cursorKey r active) ≫= CursorRow.last_match_id)
                     (FetchResult.data
                        (fetchLatestCompetitive up active (length (pre ++ [r])) r))
                     (persistRegion active r ag, 0)).1) as [-> _].
      by destruct (walkMatches_state r active
        ((player_cursor (persistRegion active r ag) !! cursorKey r active)
           ≫= CursorRow.last_match_id)
        (FetchResult.data
           (fetchLatestCompetitive up active (length (pre ++ [r])) r))
        (persistRegion active r ag, 0)) as [-> _].
  - intros Hall. unfold ingestOrRefreshMatches, resolveRegion.
    rewrite Hact, Hnone.
    by rewrite (probeRegions_none up active REGIONS 0).
Qed.

(** ** Delta bounding *)







(** ** Idempotence *)

(** C1. A second sync in succession, answered by the upstream with the
    same match list as the first, reports zero inserted rows, leaves
    [valorant_matches] as the first call left it, and leaves the cursor
    table, so the identity's [last_match_id] and [last_started_at], as the
    first call left it. *)
Theorem sync_idempotent up1 up2 ag active region asked :
  activeOf ag = Some active →
  resolveRegion up1 active = (Some region, asked) →
  up2 0 region (ActivePlayer.name active) (ActivePlayer.tag active)
  = up1 (length asked) region (ActivePlayer.name active) (ActivePlayer.tag active) →
  let run1 := ingestOrRefreshMatches toISOString up1 ag in
  let run2 := ingestOrRefreshMatches toISOString up2 (after run1) in
  insertedCount (reply run2) = 0
  ∧ valorant_matches (after run2) = valorant_matches (after run1)
  ∧ player_cursor (after run2) = player_cursor (after run1)
  ∧ player_cursor (after run2) !! cursorKey region active
    = player_cursor (after run1) !! cursorKey region active.
Proof.
  intros Hact Hres Hup run1 run2.
  assert (insertedCount (reply run2) = 0
          ∧ valorant_matches (after run2) = valorant_matches (after run1)
          ∧ player_cursor (after run2) = player_cursor (after run1)) as H;
    [|destruct H as (? & ? & Hc); by rewrite Hc].
  subst run1 run2.
  destruct (activeOf_persistRegion up1 ag active region asked Hact Hres)
    as (a' & Ha' & Hr' & Hn' & Ht').
  rewrite (ingest_resolved up1 ag active region asked Hact Hres). cbv zeta.
  pose proof (fetchLatestCompetitive_ext up1 up2 active a' (length asked) 0
                region Hn' Ht' Hup) as Hfetch.
  set (ag1 := persistRegion active region ag) in *.
  set (pk := cursorKey region active).
  set (res := fetchLatestCompetitive up1 active (length asked) region) in *.
  destruct (negb (FetchResult.ok res)) eqn:Hok; cbn [after].
  - rewrite (ingest_known_region up2 ag1 a' region Ha' Hr'). cbv zeta.
    rewrite Hfetch, Hok. done.
  - set (known := (player_cursor ag1 !! pk) ≫= CursorRow.last_match_id).
    set (ms := FetchResult.data res).
    set (w := walkMatches toISOString region active known ms (ag1, 0)).
    set (after1 := advanceCursor pk (newestOf toISOString ms) w.1).
    destruct (walkMatches_state region active known ms (ag1, 0))
      as [Hst Hcur]. fold w in Hst, Hcur. simpl in Hst, Hcur.
    destruct (advanceCursor_state pk (newestOf toISOString ms) w.1)
      as (Hst1 & Hm1 & _). fold after1 in Hst1, Hm1.
    assert (activeOf after1 = Some a') as Ha1.
    { rewrite <- Ha'. apply activeOf_state. by rewrite Hst1, Hst. }
    rewrite (ingest_known_region up2 after1 a' region Ha1 Hr'). cbv zeta.
    rewrite Hfetch, Hok, (cursorKey_ext region active a' Hn' Ht').
    fold pk ms. rewrite (walkMatches_ext region active a' _ ms _ Hn' Ht').
    set (known2 := (player_cursor after1 !! pk) ≫= CursorRow.last_match_id).
    assert (∀ i, i ∈ walkedIds known2 ms →
              countById i (valorant_matches after1) ≠ 0) as Hall.
    { intros i Hi. rewrite Hm1.
      destruct (Js.truthy_opt (newestOf toISOString ms).1) eqn:Hnew.
      - exfalso. subst known2 after1. unfold advanceCursor, upsertCursor in Hi.
        rewrite Hnew in Hi. simpl in Hi. rewrite lookup_insert_eq in Hi.
        simpl in Hi.
        destruct (newestOf toISOString ms).1 as [i0|] eqn:Hi0; [|done].
        rewrite (walkedIds_newest ms i0 Hi0 Hnew) in Hi.
        by apply elem_of_nil in Hi.
      - apply walkMatches_stored.
        subst known2 after1. unfold advanceCursor in Hi. rewrite Hnew in Hi.
        by rewrite Hcur in Hi. }
    destruct (walkMatches_no_insert region active known2 ms after1 0 Hall)
      as [Hm2 Hn2].
    destruct (walkMatches_state region active known2 ms (after1, 0))
      as [_ Hcur2]. simpl in Hcur2.
    set (w2 := walkMatches toISOString region active known2 ms (after1, 0)) in *.
    cbn [reply after insertedCount].
    destruct (advanceCursor_state pk (newestOf toISOString ms) w2.1)
      as (_ & Hm3 & _).
    split_and!; [done | by rewrite Hm3 |].
    unfold advanceCursor at 1.
    destruct (Js.truthy_opt (newestOf toISOString ms).1) eqn:Hnew; [|done].
    simpl. rewrite Hcur2. subst after1. unfold advanceCursor, upsertCursor.
    rewrite Hnew. simpl. by rewrite insert_insert_eq.
Qed.

(** ** Switching players *)

(** What any sync does to the two match tables: [valorant_matches] only
    grows, by rows stored under the active player, as many as the reply
    reports; a row of [valorant_player_stats] either stays or is replaced
    by the active player's projection of a fetched match. *)
Lemma ingest_effect up ag :
  ∃ new,
    valorant_matches (after (ingestOrRefreshMatches toISOString up ag))
    = valorant_matches ag ++ new
    ∧ insertedCount (reply (ingestOrRefreshMatches toISOString up ag))
      = length new
    ∧ (∀ active, activeOf ag = Some active →
         Forall (λ r, MatchRow.name r = ActivePlayer.name active
                      ∧ MatchRow.tag r = ActivePlayer.tag active) new)
    ∧ ∀ i,
        statsById i
          (valorant_player_stats (after (ingestOrRefreshMatches toISOString up ag)))
        = statsById i (valorant_player_stats ag)
        ∨ ∃ active region m,
            activeOf ag = Some active
            ∧ usableId m = Some i
            ∧ statsById i
                (valorant_player_stats
                   (after (ingestOrRefreshMatches toISOString up ag)))
              = [statsRowOf region active m i].
Proof.
  assert (∀ ag' r,
    valorant_matches ag' = valorant_matches ag →
    valorant_player_stats ag' = valorant_player_stats ag →
    r = 0 →
    ∃ new : list MatchRow.t,
      valorant_matches ag' = valorant_matches ag ++ new
      ∧ r = length new
      ∧ (∀ active, activeOf ag = Some active →
           Forall (λ r, MatchRow.name r = ActivePlayer.name active
                        ∧ MatchRow.tag r = ActivePlayer.tag active) new)
      ∧ ∀ i,
          statsById i (valorant_player_stats ag')
          = statsById i (valorant_player_stats ag)
          ∨ ∃ active region m,
              activeOf ag = Some active
              ∧ usableId m = Some i
              ∧ statsById i (valorant_player_stats ag')
                = [statsRowOf region active m i]) as Hsame.
  { intros ag' r Hm Hs ->. exists []. rewrite app_nil_r, Hs.
    split_and!; [done | done | by constructor | by left]. }
  destruct (activeOf ag) as [active|] eqn:Hact.
  2:{ unfold ingestOrRefreshMatches. rewrite Hact. by apply Hsame. }
  destruct (resolveRegion up active) as [[region|] asked] eqn:Hres.
  2:{ unfold ingestOrRefreshMatches. rewrite Hact, Hres. by apply Hsame. }
  rewrite (ingest_resolved up ag active region asked Hact Hres). cbv zeta.
  destruct (persistRegion_tables active region ag) as (Hpm & Hps & _).
  destruct (negb _); [by apply Hsame|]. cbn [reply after insertedCount].
  set (ag1 := persistRegion active region ag) in *.
  set (known := (player_cursor ag1 !! cursorKey region active)
                  ≫= CursorRow.last_match_id).
  set (ms := FetchResult.data _).
  destruct (walkMatches_rows region active known ms ag1 0)
    as (new & H1 & H2 & H3 & _ & _).
  destruct (advanceCursor_state (cursorKey region active)
              (newestOf toISOString ms)
              (walkMatches toISOString region active known ms (ag1, 0)).1)
    as (_ & -> & ->).
  exists new. rewrite H1, H2, Hpm. split_and!; try done.
  - intros a [= <-]. eapply Forall_impl; [done|]. by intros r (_ & ? & ?).
  - intros i.
    destruct (walkMatches_stats region active known ms ag1 0 i) as [Hn Hy].
    destruct (decide (i ∈ walkedIds known ms)) as [Hin|Hnin].
    + right. destruct (Hy Hin) as (m & _ & Hu & Hs).
      by exists active, region, m.
    + left. rewrite <- Hps. by apply Hn.
Qed.

(** What a sync for the active player [B] does to the rows of another
    player [A]. Both tables are keyed by the match id alone, one row per
    match. A sync for the active player [B] leaves every row already in
    [valorant_matches] as it is and appends only rows stored under [B];
    the queries filter by the exact name and tag, so they return only
    rows stored under [B], and for another player [A] the queries on
    [valorant_matches] ([queryKDR], [listRecentMatches]) answer after
    re-activating [A] as they did before the sync. A row of
    [valorant_player_stats] stays as it is unless the sync handled its
    match, in which case it now holds [B]'s projection. *)
Theorem switching_players up ag A B :
  activeOf ag = Some B →
  ActivePlayer.name A ≠ ActivePlayer.name B
  ∨ ActivePlayer.tag A ≠ ActivePlayer.tag B →
  let ag' := after (ingestOrRefreshMatches toISOString up ag) in
  (∃ new,
     valorant_matches ag' = valorant_matches ag ++ new
     ∧ Forall (λ r, MatchRow.name r = ActivePlayer.name B
                    ∧ MatchRow.tag r = ActivePlayer.tag B) new)
  ∧ (∀ map n r,
       r ∈ selectMatches B map n (valorant_matches ag') →
       MatchRow.name r = ActivePlayer.name B
       ∧ MatchRow.tag r = ActivePlayer.tag B)
  ∧ (∀ map n ps,
       ps ∈ selectStats B map n (valorant_player_stats ag') (valorant_matches ag') →
       StatsRow.name ps = ActivePlayer.name B
       ∧ StatsRow.tag ps = ActivePlayer.tag B)
  ∧ (∀ map n,
       queryKDR map n (setState_activePlayer A ag')
       = queryKDR map n (setState_activePlayer A ag))
  ∧ (∀ n,
       listRecentMatches n (setState_activePlayer A ag')
       = listRecentMatches n (setState_activePlayer A ag))
  ∧ (∀ i,
       statsById i (valorant_player_stats ag')
       = statsById i (valorant_player_stats ag)
       ∨ ∃ region m,
           usableId m = Some i
           ∧ statsById i (valorant_player_stats ag')
             = [statsRowOf region B m i]).
Proof.
  intros Hact Hne ag'. subst ag'.
  destruct (ingest_effect up ag) as (new & Hm & _ & Hnew & Hstats).
  specialize (Hnew B Hact).
  assert (Forall (λ r, ¬ whereNameTag A r) new) as Hother.
  { eapply Forall_impl; [done|]. intros r [Hn Ht] [Hn' Ht'].
    destruct Hne as [Hne|Hne]; apply Hne; congruence. }
  split_and!.
  - by exists new.
  - intros map n r Hr. by apply selectMatches_exact in Hr as (_ & ? & ?).
  - intros map n ps Hr. by apply selectStats_exact in Hr as (_ & ? & ? & _).
  - intros map n. unfold queryKDR, activeOf. simpl.
    destruct (negb _ || negb _); [done|].
    by rewrite Hm, selectMatches_app_other.
  - intros n. unfold listRecentMatches, activeOf. simpl.
    destruct (negb _ || negb _); [done|].
    by rewrite Hm, selectMatches_app_other.
  - intros i.
    destruct (Hstats i) as [?|(a & region & m & Ha & ? & ?)]; [by left|].
    right. exists region, m. split; [done | congruence].
Qed.

End IngestLemmas.

(** ** Aggregation *)

(** C6. For a window that is not empty the KDR is computed without a
    division fault, by [queryKDR] and by [summarizeRecentPerformance]
    alike: without deaths but with kills the reply is the undefined
    (infinite) value, without deaths and without kills it is exactly 0,
    and otherwise it is kills divided by deaths rounded to two decimals. *)
Theorem kdr_edge_cases ag active map lastN :
  activeOf ag = Some active →
  (let rows := selectMatches active map lastN (valorant_matches ag) in
   rows ≠ [] →
   ∃ v,
     queryKDR map lastN ag = KdrResult (length rows) (default "all" map) v
     ∧ KdrSpec (totalN MatchRow.player_kills rows)
         (totalN MatchRow.player_deaths rows) v)
  ∧ (let rows :=
       selectStats active map lastN (valorant_player_stats ag)
         (valorant_matches ag) in
     rows ≠ [] →
     ∃ av,
       summarizeRecentPerformance map lastN ag
       = SummaryResult (length rows) (default "all" map) av
       ∧ KdrSpec (totalN StatsRow.kills rows) (totalN StatsRow.deaths rows)
           (Averages.kdr av)).
Proof.
  intros Hact. split; intros rows Hne.
  - unfold queryKDR. rewrite Hact. by apply kdrOfRows_nonempty.
  - unfold summarizeRecentPerformance. rewrite Hact.
    destruct (summaryOfRows_nonempty map rows Hne) as (av & ? & ? & _).
    by exists av.
Qed.

(** C8. For a window that is not empty the reported headshot rate is a
    percentage: 100 times headshots / (headshots + bodyshots + legshots)
    over the summed window, rounded to two decimals, and 0 when that
    denominator is 0. *)
Theorem headshot_rate_pct ag active map lastN :
  activeOf ag = Some active →
  let rows :=
    selectStats active map lastN (valorant_player_stats ag)
      (valorant_matches ag) in
  rows ≠ [] →
  ∃ av,
    summarizeRecentPerformance map lastN ag
    = SummaryResult (length rows) (default "all" map) av
    ∧ let headshots := totalN StatsRow.headshots rows in
      let shotsTotal :=
        (headshots + totalN StatsRow.bodyshots rows
         + totalN StatsRow.legshots rows)%N in
      (shotsTotal = 0%N → Averages.headshotRatePct av = 0%Q)
      ∧ (shotsTotal ≠ 0%N →
         roundedTo2 (QofN headshots / QofN shotsTotal * 100)%Q
           (Averages.headshotRatePct av)).
Proof.
  intros Hact rows Hne.
  unfold summarizeRecentPerformance. rewrite Hact.
  destruct (summaryOfRows_nonempty map rows Hne) as (av & Hs & _ & Hpct).
  exists av. split; [done|]. cbv zeta in *. rewrite Hpct.
  destruct (N.ltb_spec 0
              (totalN StatsRow.headshots rows + totalN StatsRow.bodyshots rows
               + totalN StatsRow.legshots rows)) as [Hpos|Hzero].
  - split; [lia|]. intros _. apply toFixed2_rounded.
  - split; [done | lia].
Qed.

Lemma totalN_null {A} (f : A → option N) rows :
  Forall (λ r, f r = None) rows → totalN f rows = 0%N.
Proof. induction 1 as [|r rows Hr _ IH]; simpl; [done|]. by rewrite Hr, IH. Qed.

(** C10. [queryKDR] counts a stored match whose kills or deaths are null
    in [matchesConsidered] and adds 0 for the null to the sums; a window
    made only of matches without statistics is answered with an
    [averageKDR] of 0, not with the no-data reply. Such a row is what the
    sync stores for a match whose roster does not hold the player. *)
Theorem null_stats_counted ag active map lastN :
  activeOf ag = Some active →
  let rows := selectMatches active map lastN (valorant_matches ag) in
  rows ≠ [] →
  (∃ v,
     queryKDR map lastN ag = KdrResult (length rows) (default "all" map) v
     ∧ KdrSpec (totalN MatchRow.player_kills rows)
         (totalN MatchRow.player_deaths rows) v)
  ∧ (Forall (λ r, MatchRow.player_kills r = None
                  ∧ MatchRow.player_deaths r = None) rows →
     queryKDR map lastN ag
     = KdrResult (length rows) (default "all" map) (RatioNumber 0))
  ∧ (∀ toISOString region m matchId,
       findPlayer active m = None →
       MatchRow.player_kills (matchRowOf toISOString region active m matchId)
       = None
       ∧ MatchRow.player_deaths (matchRowOf toISOString region active m matchId)
         = None).
Proof.
  intros Hact rows Hne.
  assert (∃ v,
     queryKDR map lastN ag = KdrResult (length rows) (default "all" map) v
     ∧ KdrSpec (totalN MatchRow.player_kills rows)
         (totalN MatchRow.player_deaths rows) v) as Hq.
  { unfold queryKDR. rewrite Hact. by apply kdrOfRows_nonempty. }
  split_and!; [done| |].
  - intros Hnull. destruct Hq as (v & -> & Hv).
    rewrite !totalN_null in Hv.
    + inversion Hv; subst; [lia | done | done].
    + eapply Forall_impl; [done|]. by intros r [_ ?].
    + eapply Forall_impl; [done|]. by intros r [? _].
  - intros toISOString region m matchId Hp. unfold matchRowOf. simpl.
    by rewrite Hp.
Qed.

(** ** Identity and letter case *)

Lemma find_Some_holds {A} (f : A → bool) l x : List.find f l = Some x → f x = true.
Proof.
  induction l as [|y l IH]; simpl; [done|].
  destruct (f y) eqn:E; [by intros [= <-] | done].
Qed.

Lemma find_None_none {A} (f : A → bool) l x :
  List.find f l = None → x ∈ l → f x = false.
Proof.
  induction l as [|y l IH]; simpl; [by intros _ ?%elem_of_nil|].
  destruct (f y) eqn:E; [done|].
  intros Hn [->|?]%elem_of_cons; [done | by apply IH].
Qed.

(** Letter case in the roster lookup and in the queries. The roster
    lookup ignores letter case: it finds the same entry
    for two identities that differ only in case, the entry it finds has
    the name and tag of the identity up to case, and it finds one
    whenever the roster has such an entry. The queries do not: every row
    that [queryKDR], [listRecentMatches] and [summarizeRecentPerformance]
    select carries exactly the name and tag of the active player, so
    rows stored under another spelling are not returned. *)
Theorem identity_letter_case :
  (∀ A A' m, sameIgnoringCase A A' → findPlayer A m = findPlayer A' m)
  ∧ (∀ A m p,
       findPlayer A m = Some p →
       Js.toLowerCase <$> RosterPlayer.name p
       = Some (Js.toLowerCase (ActivePlayer.name A))
       ∧ Js.toLowerCase <$> RosterPlayer.tag p
         = Some (Js.toLowerCase (ActivePlayer.tag A)))
  ∧ (∀ A m roster p,
       Match.players m ≫= Players.all_players = Some roster →
       p ∈ roster →
       Js.toLowerCase <$> RosterPlayer.name p
       = Some (Js.toLowerCase (ActivePlayer.name A)) →
       Js.toLowerCase <$> RosterPlayer.tag p
       = Some (Js.toLowerCase (ActivePlayer.tag A)) →
       is_Some (findPlayer A m))
  ∧ (∀ A map n tbl r,
       r ∈ selectMatches A map n tbl →
       MatchRow.name r = ActivePlayer.name A
       ∧ MatchRow.tag r = ActivePlayer.tag A)
  ∧ (∀ A map n stats tbl ps,
       ps ∈ selectStats A map n stats tbl →
       StatsRow.name ps = ActivePlayer.name A
       ∧ StatsRow.tag ps = ActivePlayer.tag A).
Proof.
  assert (∀ o s, Js.lower_equals o s = true ↔ Js.toLowerCase <$> o = Some s)
    as Hlow.
  { intros [x|] s; simpl; [|done].
    destruct (String.eqb_spec (Js.toLowerCase x) s); split; congruence. }
  split_and!.
  - intros A A' m [Hn Ht]. unfold findPlayer. f_equal.
    unfold isActivePlayer. by rewrite Hn, Ht.
  - intros A m p Hp. unfold findPlayer in Hp.
    apply find_Some_holds in Hp. unfold isActivePlayer in Hp.
    apply andb_true_iff in Hp as [Hn Ht]. by rewrite <- !Hlow.
  - intros A m roster p Hr Hp Hn Ht. unfold findPlayer. rewrite Hr. simpl.
    destruct (List.find (isActivePlayer A) roster) eqn:Hf; [done|].
    pose proof (find_None_none _ _ p Hf Hp) as Hnone.
    unfold isActivePlayer in Hnone.
    apply Hlow in Hn, Ht. by rewrite Hn, Ht in Hnone.
  - intros A map n tbl r Hr. by apply selectMatches_exact in Hr as (_ & ? & ?).
  - intros A map n stats tbl ps Hr.
    by apply selectStats_exact in Hr as (_ & ? & ? & _).
Qed.

(** ** The scenarios of the specification *)

(** Cursor at M5, nothing newer stored, page [M8; M7; M6; M5; M4]: the
    three matches before M5 are inserted, in page order, and the cursor
    moves to M8. *)
Example delta_of_three :
  let run :=
    ingestOrRefreshMatches Example.toISOString
      (Example.serving
         [Example.game "M8"; Example.game "M7"; Example.game "M6";
          Example.game "M5"; Example.game "M4"])
      Example.ollieAtM5 in
  reply run = Refreshed "ollie" "chaos" na 3
  ∧ MatchRow.id <$> valorant_matches (after run)
    = ["M5"; "M4"; "M8"; "M7"; "M6"]
  ∧ (player_cursor (after run) !! "na:ollie:chaos")
      ≫= CursorRow.last_match_id = Some "M8".
Proof. vm_compute. done. Qed.

(** ollie#chaos without a region, matches in [eu] only: two probes, the
    page request, the region stored, and a second sync that inserts
    nothing. *)
Example probe_then_resync :
  let up := Example.onlyEu [Example.game "M2"; Example.game "M1"] in
  let run1 :=
    ingestOrRefreshMatches Example.toISOString up
      (Example.activate "ollie#chaos" None emptyAgent) in
  let run2 := ingestOrRefreshMatches Example.toISOString up (after run1) in
  ingestMessage (reply run1)
  = "Refreshed ollie#chaos (eu). New matches stored: 2."
  ∧ requested run1 = [na; eu; eu]
  ∧ ingestMessage (reply run2)
    = "Refreshed ollie#chaos (eu). New matches stored: 0."
  ∧ requested run2 = [eu].
Proof. vm_compute. done. Qed.

(** The roster spells the player Ollie#Chaos; the statistics are found
    for the identity typed as ollie#chaos. *)
Example roster_lookup_ignores_case :
  queryKDR None 20 Example.ollieAtM1 = KdrResult 1 "all" (RatioNumber 2).
Proof. vm_compute. done. Qed.

(** Ten kills without a death. *)
Example kdr_without_deaths :
  kdrOfRows None
    [{| MatchRow.id := "M1"; MatchRow.region := na; MatchRow.name := "ollie";
        MatchRow.tag := "chaos"; MatchRow.started_at := None;
        MatchRow.mode := None; MatchRow.map := None;
        MatchRow.player_kills := Some 10%N; MatchRow.player_deaths := Some 0%N;
        MatchRow.player_assists := None; MatchRow.raw := None |}]
  = KdrResult 1 "all" RatioInfinity.
Proof. reflexivity. Qed.

(** ** The specified properties the code does not have *)


(** ollie#chaos has synced M1, in which curry#XDDDD played too. The sync
    of curry#XDDDD replaces the statistics row of M1, and the summary of
    ollie#chaos, one match before, has no stored match after. *)
Lemma no_cross_player_bleed_as_specified_fails :
  ¬ no_cross_player_bleed_as_specified.
Proof.
  intros H.
  assert (activeOf Example.curryActive
          = Some (Example.identity "curry" "XDDDD" (Some na))) as Hact
    by (vm_compute; reflexivity).
  assert (ActivePlayer.name (Example.identity "ollie" "chaos" (Some na))
          ≠ ActivePlayer.name (Example.identity "curry" "XDDDD" (Some na))
          ∨ ActivePlayer.tag (Example.identity "ollie" "chaos" (Some na))
            ≠ ActivePlayer.tag (Example.identity "curry" "XDDDD" (Some na)))
    as Hne by (left; vm_compute; discriminate).
  pose proof (H Example.toISOString (Example.serving [Example.game "M1"])
                Example.curryActive
                (Example.identity "ollie" "chaos" (Some na))
                (Example.identity "curry" "XDDDD" (Some na))
                Hact Hne) as H'.
  cbv zeta in H'. destruct (H' None 10) as [_ Hs].
  vm_compute in Hs. discriminate.
Qed.

(** Rows stored under ollie#chaos are not returned for Ollie#chaos. *)
Lemma case_insensitive_identity_as_specified_fails :
  ¬ case_insensitive_identity_as_specified.
Proof.
  intros H.
  destruct (H Example.ollieAtM1
              (Example.identity "ollie" "chaos" (Some na))
              (Example.identity "Ollie" "chaos" (Some na))
              (conj eq_refl eq_refl)) as [_ Hq].
  destruct (Hq None 10) as [Hk _]. vm_compute in Hk. discriminate.
Qed.

(** One headshot and one bodyshot are reported as 50, not as 1/2. *)
Lemma headshot_rate_as_specified_fails : ¬ headshot_rate_as_specified.
Proof.
  intros H.
  destruct (H Example.ollieAtM1 (Example.identity "ollie" "chaos" (Some na))
              None 10) as (n & mp & av & Hs & Hpct).
  - vm_compute. reflexivity.
  - vm_compute. discriminate.
  - vm_compute in Hs. injection Hs as <- <- <-.
    vm_compute in Hpct. discriminate.
Qed.

(** ** Where the tools break the specified behaviour *)

(** C3. A match two players took part in. ollie#chaos has synced M1, in
    which curry#XDDDD played too; curry#XDDDD is made active and syncs
    the same page. With the match id as the only key of both tables the
    sync reports no new match, the row of [valorant_matches] stays the
    one of ollie#chaos and the row of [valorant_player_stats] becomes
    that of curry#XDDDD. For curry#XDDDD [queryKDR] then has no stored
    match while [summarizeRecentPerformance] has one; for ollie#chaos,
    active again, [queryKDR] has one match as before, while
    [summarizeRecentPerformance], which had one, has none. *)
Theorem shared_match_rows_overwritten :
  let runB :=
    ingestOrRefreshMatches Example.toISOString
      (Example.serving [Example.game "M1"]) Example.curryActive in
  let agA := Example.activate "ollie#chaos" (Some na) (after runB) in
  (∃ av, summarizeRecentPerformance None 10 Example.ollieAtM1
         = SummaryResult 1 "all" av)
  ∧ queryKDR None 20 Example.ollieAtM1 = KdrResult 1 "all" (RatioNumber 2)
  ∧ ingestMessage (reply runB)
    = "Refreshed curry#XDDDD (na). New matches stored: 0."
  ∧ (λ r, (MatchRow.id r, MatchRow.name r, MatchRow.tag r))
      <$> valorant_matches (after runB)
    = [("M1", "ollie", "chaos")]
  ∧ (λ r, (StatsRow.match_id r, StatsRow.name r, StatsRow.tag r))
      <$> valorant_player_stats (after runB)
    = [("M1", "curry", "XDDDD")]
  ∧ queryKDR None 20 (after runB) = KdrNoStoredMatches
  ∧ (∃ av, summarizeRecentPerformance None 10 (after runB)
           = SummaryResult 1 "all" av)
  ∧ queryKDR None 20 agA = KdrResult 1 "all" (RatioNumber 2)
  ∧ summarizeRecentPerformance None 10 agA = SummaryNoStoredMatches.
Proof.
  vm_compute. split_and!; try reflexivity; by eexists.
Qed.

(** C7. Another spelling of the same identity. The rows of M1 are stored
    under ollie#chaos, the roster of M1 spells the player Ollie#Chaos.
    With Ollie#chaos as the active player the roster lookup finds the
    entry of the player, as it does for ollie#chaos, but the three
    queries, which compare the stored name and tag as they are, find no
    stored match; a sync as Ollie#chaos reports no new match, and
    [queryKDR] still finds none. *)
Theorem other_spelling_finds_no_rows :
  let typed := Example.identity "Ollie" "chaos" (Some na) in
  let agO := Example.activate "Ollie#chaos" (Some na) Example.ollieAtM1 in
  let run :=
    ingestOrRefreshMatches Example.toISOString
      (Example.serving [Example.game "M1"]) agO in
  activeOf agO = Some typed
  ∧ findPlayer typed (Example.game "M1") = Some Example.ollie
  ∧ findPlayer (Example.identity "ollie" "chaos" (Some na)) (Example.game "M1")
    = Some Example.ollie
  ∧ queryKDR None 20 Example.ollieAtM1 = KdrResult 1 "all" (RatioNumber 2)
  ∧ queryKDR None 20 agO = KdrNoStoredMatches
  ∧ summarizeRecentPerformance None 10 agO = SummaryNoStoredMatches
  ∧ listRecentMatches 10 agO = ListNoStoredMatches
  ∧ ingestMessage (reply run)
    = "Refreshed Ollie#chaos (na). New matches stored: 0."
  ∧ queryKDR None 20 (after run) = KdrNoStoredMatches.
Proof.
  vm_compute. split_and!; reflexivity.
Qed.

(** ** Instances *)

Lemma sync_idempotent_witness :
  insertedCount
    (reply
       (ingestOrRefreshMatches Example.toISOString
          (Example.serving
             [Example.game "M8"; Example.game "M7"; Example.game "M6";
              Example.game "M5"; Example.game "M4"])
          (after
             (ingestOrRefreshMatches Example.toISOString
                (Example.serving
                   [Example.game "M8"; Example.game "M7"; Example.game "M6";
                    Example.game "M5"; Example.game "M4"])
                Example.ollieAgain))))
  = 0.
Proof.
  apply (sync_idempotent Example.toISOString
           (Example.serving
              [Example.game "M8"; Example.game "M7"; Example.game "M6";
               Example.game "M5"; Example.game "M4"])
           (Example.serving
              [Example.game "M8"; Example.game "M7"; Example.game "M6";
               Example.game "M5"; Example.game "M4"])
           Example.ollieAgain
           (Example.identity "ollie" "chaos" (Some na)) na []);
    vm_compute; reflexivity.
Defined.


Lemma switching_players_witness :
  queryKDR None 10
    (setState_activePlayer (Example.identity "ollie" "chaos" (Some na))
       (after
          (ingestOrRefreshMatches Example.toISOString
             (Example.serving [Example.game "M1"]) Example.curryActive)))
  = queryKDR None 10
      (setState_activePlayer (Example.identity "ollie" "chaos" (Some na))
         Example.curryActive).
Proof.
  refine (proj1 (proj2 (proj2 (proj2
    (switching_players Example.toISOString
       (Example.serving [Example.game "M1"]) Example.curryActive
       (Example.identity "ollie" "chaos" (Some na))
       (Example.identity "curry" "XDDDD" (Some na)) _ _)))) None 10).
  - vm_compute; reflexivity.
  - left. discriminate.
Defined.

Lemma upstream_failure_aborts_witness :
  reply
    (ingestOrRefreshMatches Example.toISOString Example.failing
       Example.ollieAgain)
  = HenrikDevError 429.
Proof.
  refine (proj1
    (upstream_failure_aborts Example.toISOString Example.failing
       Example.ollieAgain (Example.identity "ollie" "chaos" (Some na))
       na [] 429%N _ _ _)); vm_compute; reflexivity.
Defined.

Lemma region_probe_order_witness :
  requested
    (ingestOrRefreshMatches Example.toISOString
       (Example.onlyEu [Example.game "M1"])
       (Example.activate "ollie#chaos" None emptyAgent))
  = [na; eu; eu].
Proof.
  refine (proj1
    (proj1
       (region_probe_order Example.toISOString
          (Example.onlyEu [Example.game "M1"])
          (Example.activate "ollie#chaos" None emptyAgent)
          (Example.identity "ollie" "chaos" None) _ _)
       [na] eu [ap; kr; latam; br] _ _ _)); try (vm_compute; reflexivity).
  intros [|i] c [=]. by subst.
Defined.

Lemma kdr_edge_cases_witness :
  ∃ v,
    queryKDR None 10 Example.ollieAtM1 = KdrResult 1 "all" v
    ∧ KdrSpec 10 5 v.
Proof.
  refine (proj1
    (kdr_edge_cases Example.ollieAtM1
       (Example.identity "ollie" "chaos" (Some na)) None 10 _) _).
  - vm_compute; reflexivity.
  - vm_compute. discriminate.
Defined.

Lemma headshot_rate_pct_witness :
  ∃ av,
    summarizeRecentPerformance None 10 Example.ollieAtM1
    = SummaryResult 1 "all" av
    ∧ roundedTo2 (QofN 1 / QofN 2 * 100)%Q (Averages.headshotRatePct av).
Proof.
  destruct (headshot_rate_pct Example.ollieAtM1
              (Example.identity "ollie" "chaos" (Some na)) None 10)
    as (av & Hs & _ & Hpct).
  - vm_compute; reflexivity.
  - vm_compute. discriminate.
  - exists av. split; [exact Hs|].
    apply Hpct. vm_compute. discriminate.
Defined.

Lemma setActivePlayer_rejected_unchanged_witness :
  (setActivePlayer
     {| SetActiveInput.riotId := Some "curry";
        SetActiveInput.name := None;
        SetActiveInput.tag := None;
        SetActiveInput.region := None |} Example.ollieAtM1).2
  = Example.ollieAtM1.
Proof.
  refine (proj1 (proj2
    (setActivePlayer_rejected_unchanged
       {| SetActiveInput.riotId := Some "curry";
          SetActiveInput.name := None;
          SetActiveInput.tag := None;
          SetActiveInput.region := None |} Example.ollieAtM1 _))).
  apply (rejected_no_delimiter _ "curry"); [reflexivity | discriminate |].
  vm_compute. intuition discriminate.
Defined.

Lemma null_stats_counted_witness :
  queryKDR None 10 Example.ghostAtM9 = KdrResult 1 "all" (RatioNumber 0).
Proof.
  refine (proj1 (proj2
    (null_stats_counted Example.ghostAtM9
       (Example.identity "ghost" "0000" (Some na)) None 10 _ _)) _).
  - vm_compute; reflexivity.
  - vm_compute. discriminate.
  - repeat constructor.
Defined.

(** * Further properties of the tools *)

(** ** [splitRiotId] and [setActivePlayer], further *)

Lemma occurs_trimStart_keep c s :
  Js.is_white_space c = false → occurs c s → occurs c (Js.trimStart s).
Proof.
  intros Hc. induction s as [|d r IH]; simpl; [done|].
  destruct (Js.is_white_space d) eqn:Hd; simpl; [|done].
  intros [->|?]; [congruence | by apply IH].
Qed.

Lemma occurs_trimEnd_keep c s :
  Js.is_white_space c = false → occurs c s → occurs c (Js.trimEnd s).
Proof.
  intros Hc. induction s as [|d r IH]; simpl; [done|].
  intros [->|Hr].
  - destruct (Js.trimEnd r); [|by left]. rewrite Hc. by left.
  - specialize (IH Hr). destruct (Js.trimEnd r); [done|]. by right.
Qed.

Lemma substring_whole r : String.substring 0 (String.length r) r = r.
Proof. induction r as [|e r IH]; simpl; [done|]. by rewrite IH. Qed.

Lemma indexOf_Some c s : ∀ i,
  Js.indexOf c s = Some i →
  String.substring 0 i s
    +:+ String c (String.substring (S i) (String.length s - S i) s) = s
  ∧ ¬ occurs c (String.substring 0 i s).
Proof.
  induction s as [|d r IH]; intros i; simpl; [done|].
  destruct (Ascii.eqb_spec d c) as [->|Hne].
  - intros [= <-]. simpl. split; [|tauto].
    by rewrite Nat.sub_0_r, substring_whole.
  - destruct (Js.indexOf c r) as [j|] eqn:Hj; [|done]. intros [= <-].
    destruct (IH j eq_refl) as [Heq Hno].
    cbn [String.substring String.length String.append Nat.sub occurs].
    split; [exact (f_equal (String d) Heq) | intros [?|?]; done].
Qed.

Lemma splitRiotId_None_iff s : splitRiotId s = None ↔ ¬ occurs "#" s.
Proof.
  split; [|apply splitRiotId_None].
  unfold splitRiotId. destruct (Js.indexOf "#" (Js.trim s)) eqn:Hi; [done|].
  intros _ Ho. apply indexOf_None in Hi. apply Hi.
  by apply occurs_trimEnd_keep, occurs_trimStart_keep.
Qed.

(** [splitRiotId] answers [null] exactly for an input without ['#'];
    otherwise it splits the trimmed input at its first ['#']: the name
    holds no ['#'], and name, ['#'] and tag put together give the trimmed
    input back. *)
Theorem splitRiotId_splits_trimmed s :
  (splitRiotId s = None ↔ ¬ occurs "#" s)
  ∧ ∀ n t,
      splitRiotId s = Some (n, t) →
      n +:+ "#" +:+ t = Js.trim s ∧ ¬ occurs "#" n.
Proof.
  split; [apply splitRiotId_None_iff|].
  intros n t. unfold splitRiotId.
  destruct (Js.indexOf "#" (Js.trim s)) as [i|] eqn:Hi; [|done].
  intros [= <- <-]. unfold Js.slice, Js.sliceFrom.
  rewrite Nat.sub_0_r, Nat.add_1_r. by apply indexOf_Some.
Qed.

(** The inputs [setActivePlayer] rejects are exactly the rejected inputs. *)
Theorem setActivePlayer_rejects_exactly input ag :
  isRejection (setActivePlayer input ag).1 = true ↔ rejectedInput input.
Proof.
  split; [|apply setActivePlayer_rejects].
  unfold setActivePlayer.
  destruct (Js.truthy_opt (SetActiveInput.riotId input)) eqn:Hr.
  - destruct (SetActiveInput.riotId input) as [s|] eqn:Hs; [|done].
    simpl in Hr. apply truthy_true in Hr. simpl.
    destruct (splitRiotId s) as [[n t]|] eqn:Hsp.
    + destruct (Js.truthy n) eqn:Hn, (Js.truthy t) eqn:Ht; simpl; try done;
        intros _; apply (rejected_empty_part input s n t Hs Hr Hsp).
      * right. destruct (String.eqb_spec t ""); [done|].
        by apply truthy_true in n0; congruence.
      * left. destruct (String.eqb_spec n ""); [done|].
        by apply truthy_true in n0; congruence.
      * left. destruct (String.eqb_spec n ""); [done|].
        by apply truthy_true in n0; congruence.
    + intros _. apply (rejected_no_delimiter input s Hs Hr).
      by apply splitRiotId_None_iff.
  - destruct (Js.truthy_opt (SetActiveInput.name input)) eqn:Hn,
             (Js.truthy_opt (SetActiveInput.tag input)) eqn:Ht; simpl; try done;
      intros _; apply (rejected_nothing_provided input Hr); auto.
Qed.

(** An accepted input replaces the active player as a whole: the name and
    tag come from the riotId when there is one and from the explicit
    fields otherwise, both are non-empty, the region is the one of the
    input (absent when the input has none, whatever the previous player's
    region was), the other state keys and the three tables stay as they
    are, and the tools that follow see the new player. *)
Theorem setActivePlayer_replaces input ag n t r :
  (setActivePlayer input ag).1 = ActivePlayerIsNow n t r →
  let ag' := (setActivePlayer input ag).2 in
  let p := {| ActivePlayer.region := SetActiveInput.region input;
              ActivePlayer.name := n;
              ActivePlayer.tag := t |} in
  r = SetActiveInput.region input
  ∧ n ≠ "" ∧ t ≠ ""
  ∧ activePlayer (state ag') = Some p
  ∧ activeOf ag' = Some p
  ∧ otherKeys (state ag') = otherKeys (state ag)
  ∧ sameTables ag ag'
  ∧ (if Js.truthy_opt (SetActiveInput.riotId input)
     then SetActiveInput.riotId input ≫= splitRiotId = Some (n, t)
     else SetActiveInput.name input = Some n
          ∧ SetActiveInput.tag input = Some t).
Proof.
  assert (∀ on ot,
    (if negb (Js.truthy_opt on) || negb (Js.truthy_opt ot)
     then (PleaseProvide, ag)
     else (ActivePlayerIsNow (default "" on) (default "" ot)
             (SetActiveInput.region input),
           setState_activePlayer
             {| ActivePlayer.region := SetActiveInput.region input;
                ActivePlayer.name := default "" on;
                ActivePlayer.tag := default "" ot |} ag)).1
    = ActivePlayerIsNow n t r →
    r = SetActiveInput.region input ∧ on = Some n ∧ ot = Some t
    ∧ Js.truthy n = true ∧ Js.truthy t = true) as Hfinish.
  { intros [x|] [y|]; simpl; try done.
    - destruct (Js.truthy x) eqn:Hx, (Js.truthy y) eqn:Hy; simpl; try done.
      by intros [= <- <- <-].
    - by rewrite orb_true_r. }
  unfold setActivePlayer.
  destruct (Js.truthy_opt (SetActiveInput.riotId input)) eqn:Hr.
  - destruct (SetActiveInput.riotId input ≫= splitRiotId) as [[n' t']|] eqn:Hs;
      [|done].
    intros H. pose proof (Hfinish _ _ H) as (-> & [= ->] & [= ->] & Hn & Ht).
    cbv zeta. simpl Js.truthy_opt. rewrite Hn, Ht. simpl.
    unfold activeOf. simpl. rewrite Hn, Ht. simpl.
    apply truthy_true in Hn, Ht. done.
  - intros H. pose proof (Hfinish _ _ H) as (-> & Hon & Hot & Hn & Ht).
    cbv zeta. rewrite Hon, Hot. simpl Js.truthy_opt. rewrite Hn, Ht. simpl.
    unfold activeOf. simpl. rewrite Hn, Ht. simpl.
    apply truthy_true in Hn, Ht. done.
Qed.

(** ** [ingestOrRefreshMatches], further *)

Section MoreIngest.

Variable toISOString : Z → string.

Lemma probeRegions_length up active rs : ∀ n,
  length (probeRegions up active n rs).2 ≤ length rs.
Proof.
  induction rs as [|r rs IH]; intros n; simpl; [done|].
  destruct (_ && _); simpl; [lia|].
  specialize (IH (S n)). destruct (probeRegions up active (S n) rs). simpl in *.
  lia.
Qed.

(** A call sends at most seven requests to the upstream, six probes and
    the page request, and none at all without an active player. *)
Theorem request_bound up ag :
  length (requested (ingestOrRefreshMatches toISOString up ag)) ≤ 7
  ∧ (activeOf ag = None →
     requested (ingestOrRefreshMatches toISOString up ag) = []).
Proof.
  destruct (activeOf ag) as [active|] eqn:Hact.
  2:{ unfold ingestOrRefreshMatches. rewrite Hact. simpl. split; [lia | done]. }
  split; [|done].
  assert (length (resolveRegion up active).2 ≤ 6) as Hlen.
  { unfold resolveRegion. destruct (ActivePlayer.region active); simpl; [lia|].
    apply (probeRegions_length up active REGIONS 0). }
  destruct (resolveRegion up active) as [[region|] asked] eqn:Hres.
  - rewrite (ingest_resolved toISOString up ag active region asked Hact Hres).
    cbv zeta. simpl in Hlen.
    destruct (negb _); cbn [requested]; rewrite length_app; simpl; lia.
  - unfold ingestOrRefreshMatches. rewrite Hact, Hres. simpl in *. lia.
Qed.

(** For a player whose region is known the call sends one request, for
    that region, and leaves the session state as it is. *)
Theorem known_region_single_request up ag active region :
  activeOf ag = Some active →
  ActivePlayer.region active = Some region →
  requested (ingestOrRefreshMatches toISOString up ag) = [region]
  ∧ state (after (ingestOrRefreshMatches toISOString up ag)) = state ag.
Proof.
  intros Hact Hr.
  rewrite (ingest_known_region toISOString up ag active region Hact Hr).
  cbv zeta. destruct (negb _); cbn [requested after]; [done|].
  split; [done|].
  destruct (advanceCursor_state (cursorKey region active)
              (newestOf toISOString
                 (FetchResult.data (fetchLatestCompetitive up active 0 region)))
              (walkMatches toISOString region active
                 ((player_cursor ag !! cursorKey region active)
                    ≫= CursorRow.last_match_id)
                 (FetchResult.data (fetchLatestCompetitive up active 0 region))
                 (ag, 0)).1) as [-> _].
  by destruct (walkMatches_state toISOString region active
                 ((player_cursor ag !! cursorKey region active)
                    ≫= CursorRow.last_match_id)
                 (FetchResult.data (fetchLatestCompetitive up active 0 region))
                 (ag, 0)) as [-> _].
Qed.

(** The state of the agent after a call that resolved a region. *)
Lemma ingest_state up ag active region asked :
  activeOf ag = Some active →
  resolveRegion up active = (Some region, asked) →
  state (after (ingestOrRefreshMatches toISOString up ag))
  = state (persistRegion active region ag).
Proof.
  intros Hact Hres.
  rewrite (ingest_resolved toISOString up ag active region asked Hact Hres).
  cbv zeta. destruct (negb _); cbn [after]; [done|].
  set (ag1 := persistRegion active region ag).
  set (known := (player_cursor ag1 !! cursorKey region active)
                  ≫= CursorRow.last_match_id).
  set (ms := FetchResult.data _).
  destruct (advanceCursor_state (cursorKey region active)
              (newestOf toISOString ms)
              (walkMatches toISOString region active known ms (ag1, 0)).1)
    as [-> _].
  by destruct (walkMatches_state toISOString region active known ms (ag1, 0))
    as [-> _].
Qed.

(** A sync never unsets or renames the active player: after any call the
    active player has the same name and tag, a region it had is the
    region it has, a region it lacked is filled in only with the region
    the call resolved, and the other state keys are untouched. *)
Theorem sync_keeps_identity up ag active :
  activeOf ag = Some active →
  let ag' := after (ingestOrRefreshMatches toISOString up ag) in
  ∃ active',
    activeOf ag' = Some active'
    ∧ ActivePlayer.name active' = ActivePlayer.name active
    ∧ ActivePlayer.tag active' = ActivePlayer.tag active
    ∧ (∀ r, ActivePlayer.region active = Some r →
            ActivePlayer.region active' = Some r)
    ∧ (ActivePlayer.region active = None →
       ActivePlayer.region active' = (resolveRegion up active).1)
    ∧ otherKeys (state ag') = otherKeys (state ag).
Proof.
  intros Hact ag'. subst ag'.
  destruct (resolveRegion up active) as [[region|] asked] eqn:Hres.
  - destruct (activeOf_persistRegion up ag active region asked Hact Hres)
      as (a' & Ha' & Hr' & Hn' & Ht').
    exists a'.
    rewrite (activeOf_state (persistRegion active region ag)
               (after (ingestOrRefreshMatches toISOString up ag)))
      by by apply (ingest_state up ag active region asked).
    rewrite (ingest_state up ag active region asked Hact Hres).
    split_and!; try done.
    + intros r Hr. unfold resolveRegion in Hres. rewrite Hr in Hres.
      injection Hres as <- <-. done.
    + unfold persistRegion. by destruct (ActivePlayer.region active).
  - unfold ingestOrRefreshMatches. rewrite Hact, Hres. simpl.
    by exists active.
Qed.

(** The tables change only under the reply [Refreshed]: with any other
    reply (no active player, unresolved region, upstream error) all three
    are as before. *)
Theorem tables_change_only_when_refreshed up ag :
  (∀ n t r i,
     reply (ingestOrRefreshMatches toISOString up ag) ≠ Refreshed n t r i) →
  sameTables ag (after (ingestOrRefreshMatches toISOString up ag)).
Proof.
  intros Hrep.
  destruct (activeOf ag) as [active|] eqn:Hact.
  2:{ unfold ingestOrRefreshMatches. rewrite Hact. done. }
  destruct (resolveRegion up active) as [[region|] asked] eqn:Hres.
  2:{ unfold ingestOrRefreshMatches. rewrite Hact, Hres. done. }
  revert Hrep.
  rewrite (ingest_resolved toISOString up ag active region asked Hact Hres).
  cbv zeta. destruct (negb _); cbn [reply after].
  - intros _. apply persistRegion_tables.
  - intros Hrep. by destruct (Hrep _ _ _ _ eq_refl).
Qed.


(** *** Keys *)

Lemma walkMatches_ids region active known ms ag n i :
  i ∈ MatchRow.id <$>
        valorant_matches (walkMatches toISOString region active known ms (ag, n)).1
  ↔ i ∈ MatchRow.id <$> valorant_matches ag ∨ i ∈ walkedIds known ms.
Proof.
  destruct (walkMatches_rows toISOString region active known ms ag n)
    as (new & -> & _ & _ & _ & H5).
  rewrite fmap_app, elem_of_app, H5, <- countById_elem. split.
  - intros [?|[? ?]]; [by left | by right].
  - intros [?|?]; [by left|].
    destruct (decide (countById i (valorant_matches ag) = 0)); [by right | by left].
Qed.

Lemma walkMatches_NoDup region active known ms ag n :
  NoDup (MatchRow.id <$> valorant_matches ag) →
  NoDup (MatchRow.id <$>
           valorant_matches
             (walkMatches toISOString region active known ms (ag, n)).1).
Proof.
  intros Hnd.
  destruct (walkMatches_rows toISOString region active known ms ag n)
    as (new & -> & _ & _ & H4 & H5).
  rewrite fmap_app. apply NoDup_app. split_and!; [done | | done].
  intros i Hi Hnew. apply H5 in Hnew as [_ Hc].
  by apply countById_elem in Hi.
Qed.

Lemma statsById_elem i tbl :
  i ∈ StatsRow.match_id <$> tbl ↔ statsById i tbl ≠ [].
Proof.
  unfold statsById. induction tbl as [|r tbl IH].
  - split; [by intros ?%elem_of_nil | done].
  - rewrite fmap_cons, elem_of_cons, filter_cons.
    destruct (decide (StatsRow.match_id r = i)) as [<-|Hne].
    + split; [done | by left].
    + rewrite IH. split; [by intros [?|?] | by right].
Qed.

Lemma walkMatches_stats_ids region active known ms ag n i :
  i ∈ StatsRow.match_id <$>
        valorant_player_stats
          (walkMatches toISOString region active known ms (ag, n)).1
  ↔ i ∈ StatsRow.match_id <$> valorant_player_stats ag
    ∨ i ∈ walkedIds known ms.
Proof.
  destruct (walkMatches_stats toISOString region active known ms ag n i)
    as [Hout Hin].
  rewrite !statsById_elem.
  destruct (decide (i ∈ walkedIds known ms)) as [Hw|Hw].
  - destruct (Hin Hw) as (m & _ & _ & ->). split; [by right | done].
  - rewrite (Hout Hw). split; [by left | by intros [?|?]].
Qed.

Lemma insertOrReplace_ids row tbl :
  StatsRow.match_id <$> insertOrReplace row tbl
  = filter (λ i, i ≠ StatsRow.match_id row) (StatsRow.match_id <$> tbl)
    ++ [StatsRow.match_id row].
Proof.
  unfold insertOrReplace. rewrite fmap_app. f_equal.
  induction tbl as [|r tbl IH]; [done|].
  rewrite fmap_cons, !filter_cons.
  destruct (decide (StatsRow.match_id r ≠ StatsRow.match_id row)) as [Hn|Hn].
  - by rewrite fmap_cons, IH.
  - done.
Qed.

Lemma insertOrReplace_NoDup row tbl :
  NoDup (StatsRow.match_id <$> tbl) →
  NoDup (StatsRow.match_id <$> insertOrReplace row tbl).
Proof.
  intros Hnd. rewrite insertOrReplace_ids. apply NoDup_app. split_and!.
  - by apply NoDup_filter.
  - intros i [Hi _]%list_elem_of_filter ->%list_elem_of_singleton. done.
  - apply NoDup_singleton.
Qed.

Lemma walkMatches_stats_NoDup region active known ms : ∀ ag n,
  NoDup (StatsRow.match_id <$> valorant_player_stats ag) →
  NoDup (StatsRow.match_id <$>
           valorant_player_stats
             (walkMatches toISOString region active known ms (ag, n)).1).
Proof.
  induction ms as [|m ms IH]; intros ag n Hnd; [done|].
  rewrite walkMatches_cons. destruct (usableId m) as [i|]; [|by apply IH].
  destruct (isKnown known i); [done|].
  pose proof (ingestMatch_stats toISOString region active m i ag n) as Hs.
  destruct (ingestMatch toISOString region active m i (ag, n)) as [ag' n'].
  apply IH. simpl in Hs. rewrite Hs. by apply insertOrReplace_NoDup.
Qed.

(** The tables of a call that fetched a page, through the loop. *)
Lemma ingest_tables up ag active region asked :
  activeOf ag = Some active →
  resolveRegion up active = (Some region, asked) →
  FetchResult.ok (fetchLatestCompetitive up active (length asked) region) = true →
  let ag1 := persistRegion active region ag in
  let pk := cursorKey region active in
  let ms :=
    FetchResult.data (fetchLatestCompetitive up active (length asked) region) in
  let w :=
    walkMatches toISOString region active
      ((player_cursor ag !! pk) ≫= CursorRow.last_match_id) ms (ag1, 0) in
  after (ingestOrRefreshMatches toISOString up ag)
  = advanceCursor pk (newestOf toISOString ms) w.1
  ∧ reply (ingestOrRefreshMatches toISOString up ag)
    = Refreshed (ActivePlayer.name active) (ActivePlayer.tag active) region w.2
  ∧ valorant_matches ag1 = valorant_matches ag
  ∧ valorant_player_stats ag1 = valorant_player_stats ag.
Proof.
  intros Hact Hres Hok.
  rewrite (ingest_resolved toISOString up ag active region asked Hact Hres).
  cbv zeta. rewrite Hok. simpl negb. cbn [after reply].
  rewrite (persistRegion_cursor active region ag).
  destruct (persistRegion_tables active region ag) as (? & ? & _). done.
Qed.

(** Either a call fetched a page and went through the loop, or it left
    the three tables alone. *)
Lemma ingest_cases up ag :
  sameTables ag (after (ingestOrRefreshMatches toISOString up ag))
  ∧ insertedCount (reply (ingestOrRefreshMatches toISOString up ag)) = 0
  ∨ ∃ active region asked,
      activeOf ag = Some active
      ∧ resolveRegion up active = (Some region, asked)
      ∧ FetchResult.ok (fetchLatestCompetitive up active (length asked) region)
        = true.
Proof.
  destruct (activeOf ag) as [active|] eqn:Hact.
  2:{ left. unfold ingestOrRefreshMatches. rewrite Hact. done. }
  destruct (resolveRegion up active) as [[region|] asked] eqn:Hres.
  2:{ left. unfold ingestOrRefreshMatches. rewrite Hact, Hres. done. }
  destruct (FetchResult.ok (fetchLatestCompetitive up active (length asked) region))
    eqn:Hok.
  - right. by exists active, region, asked.
  - left.
    rewrite (ingest_resolved toISOString up ag active region asked Hact Hres).
    cbv zeta. rewrite Hok. simpl. split; [apply persistRegion_tables | done].
Qed.

(** A sync keeps the primary keys: when no match id occurs twice in
    [valorant_matches] nor in [valorant_player_stats], none does after
    the call. *)
Theorem sync_keeps_keys_unique up ag :
  NoDup (MatchRow.id <$> valorant_matches ag) →
  NoDup (StatsRow.match_id <$> valorant_player_stats ag) →
  let ag' := after (ingestOrRefreshMatches toISOString up ag) in
  NoDup (MatchRow.id <$> valorant_matches ag')
  ∧ NoDup (StatsRow.match_id <$> valorant_player_stats ag').
Proof.
  intros Hm Hs ag'. subst ag'.
  destruct (ingest_cases up ag)
    as [[(-> & -> & _) _]|(active & region & asked & Hact & Hres & Hok)];
    [done|].
  destruct (ingest_tables up ag active region asked Hact Hres Hok)
    as (-> & _ & Hm1 & Hs1). cbv zeta.
  set (w := walkMatches _ _ _ _ _ _).
  destruct (advanceCursor_state (cursorKey region active)
              (newestOf toISOString
                 (FetchResult.data
                    (fetchLatestCompetitive up active (length asked) region)))
              w.1) as (_ & -> & ->).
  split.
  - apply walkMatches_NoDup. by rewrite Hm1.
  - apply walkMatches_stats_NoDup. by rewrite Hs1.
Qed.

(** A sync keeps the two match tables in step: when they hold rows for
    the same match ids before the call, they do after it, so that the
    join of the summary loses no stored match. *)
Theorem sync_keeps_tables_in_step up ag :
  (∀ i, i ∈ MatchRow.id <$> valorant_matches ag
        ↔ i ∈ StatsRow.match_id <$> valorant_player_stats ag) →
  let ag' := after (ingestOrRefreshMatches toISOString up ag) in
  ∀ i, i ∈ MatchRow.id <$> valorant_matches ag'
       ↔ i ∈ StatsRow.match_id <$> valorant_player_stats ag'.
Proof.
  intros Hstep ag' i. subst ag'.
  destruct (ingest_cases up ag)
    as [[(-> & -> & _) _]|(active & region & asked & Hact & Hres & Hok)];
    [done|].
  destruct (ingest_tables up ag active region asked Hact Hres Hok)
    as (-> & _ & Hm1 & Hs1). cbv zeta.
  set (ms := FetchResult.data _).
  set (known := (player_cursor ag !! cursorKey region active)
                  ≫= CursorRow.last_match_id).
  destruct (advanceCursor_state (cursorKey region active)
              (newestOf toISOString ms)
              (walkMatches toISOString region active known ms
                 (persistRegion active region ag, 0)).1) as (_ & -> & ->).
  rewrite walkMatches_ids, walkMatches_stats_ids, Hm1, Hs1, Hstep. done.
Qed.


(** *** The cursor *)

(** After a call that fetched a page, the cursor row of the player is
    that of the first match of the page when this match has an id, even
    if no row was inserted; it is as before when the page is empty or its
    first match has no id; and the cursor rows of the other keys are as
    before. *)
Theorem cursor_follows_first_match up ag active region asked page :
  activeOf ag = Some active →
  resolveRegion up active = (Some region, asked) →
  up (length asked) region (ActivePlayer.name active) (ActivePlayer.tag active)
  = HttpOk (Some page) →
  let ag' := after (ingestOrRefreshMatches toISOString up ag) in
  let pk := cursorKey region active in
  (∀ pk', pk' ≠ pk → player_cursor ag' !! pk' = player_cursor ag !! pk')
  ∧ (∀ m0 rest i,
       page = m0 :: rest → usableId m0 = Some i →
       player_cursor ag' !! pk
       = Some {| CursorRow.last_match_id := Some i;
                 CursorRow.last_started_at :=
                   startedOf toISOString (Match.metadata m0) |})
  ∧ (page = [] ∨ (∃ m0 rest, page = m0 :: rest ∧ usableId m0 = None) →
     player_cursor ag' !! pk = player_cursor ag !! pk).
Proof.
  intros Hact Hres Hup ag' pk. subst ag'.
  assert (fetchLatestCompetitive up active (length asked) region
          = {| FetchResult.ok := true; FetchResult.status := 200%N;
               FetchResult.data := page |}) as Hf.
  { unfold fetchLatestCompetitive. by rewrite Hup. }
  destruct (ingest_tables up ag active region asked Hact Hres)
    as (-> & _ & _ & _); [by rewrite Hf|]. cbv zeta. rewrite Hf.
  cbn [FetchResult.data]. fold pk.
  set (known := (player_cursor ag !! pk) ≫= CursorRow.last_match_id).
  destruct (walkMatches_state toISOString region active known page
              (persistRegion active region ag, 0)) as [_ Hc].
  simpl in Hc. rewrite (persistRegion_cursor active region ag) in Hc.
  set (w := walkMatches _ _ _ _ _ _) in *. clearbody w.
  unfold advanceCursor, upsertCursor. split_and!.
  - intros pk' Hne. destruct (Js.truthy_opt _); simpl; [|by rewrite Hc].
    by rewrite lookup_insert_ne, Hc.
  - intros m0 rest i -> [Hid Ht]%usableId_Some. simpl. rewrite Hid. simpl.
    rewrite Ht. simpl. by rewrite lookup_insert_eq.
  - intros Hcase.
    assert (Js.truthy_opt (newestOf toISOString page).1 = false) as ->;
      [|by rewrite Hc].
    destruct Hcase as [->|(m0 & rest & -> & Hno)]; [done|]. simpl.
    unfold usableId in Hno. destruct (matchIdOf m0) as [i|]; [|done].
    simpl. by destruct (Js.truthy i).
Qed.

(** *** The rows of a call *)

Lemma walkMatches_projections region active known ms : ∀ ag n,
  ∃ new,
    valorant_matches (walkMatches toISOString region active known ms (ag, n)).1
    = valorant_matches ag ++ new
    ∧ Forall (λ r, ∃ m, m ∈ ms ∧ usableId m = Some (MatchRow.id r)
                       ∧ r = matchRowOf toISOString region active m
                               (MatchRow.id r)) new.
Proof.
  induction ms as [|m ms IH]; intros ag n.
  - exists []. by rewrite app_nil_r.
  - rewrite walkMatches_cons. destruct (usableId m) as [i|] eqn:Hu.
    2:{ destruct (IH ag n) as (new & ? & Hall). exists new. split; [done|].
        eapply Forall_impl; [done|]. intros r (m' & ? & ? & ?).
        exists m'. split; [by right | done]. }
    destruct (isKnown known i).
    { exists []. by rewrite app_nil_r. }
    destruct (ingestMatch toISOString region active m i (ag, n)) as [ag' n'] eqn:Hi.
    destruct (IH ag' n') as (new & -> & Hall).
    assert (Forall (λ r, ∃ m0, m0 ∈ m :: ms ∧ usableId m0 = Some (MatchRow.id r)
                          ∧ r = matchRowOf toISOString region active m0
                                  (MatchRow.id r)) new) as Hall'.
    { eapply Forall_impl; [done|]. intros r (m' & ? & ? & ?).
      exists m'. split; [by right | done]. }
    destruct (decide (countById i (valorant_matches ag) = 0)) as [Hc|Hc].
    + destruct (ingestMatch_new toISOString region active m i ag n Hc) as [Hm _].
      rewrite Hi in Hm. simpl in Hm. rewrite Hm, <- app_assoc.
      eexists. split; [done|]. constructor; [|done].
      exists m. split_and!; [by left | done | done].
    + destruct (ingestMatch_old toISOString region active m i ag n Hc) as [Hm _].
      rewrite Hi in Hm. simpl in Hm. rewrite Hm. by exists new.
Qed.

(** The number a reply reports is the number of rows the call added to
    [valorant_matches], after the rows that were there; each added row is
    the projection, for the active player and the resolved region, of a
    match of a page the upstream answered with, under the id of that
    match, and its [raw] column is null. *)
Theorem inserted_rows_are_projections up ag :
  ∃ new,
    valorant_matches (after (ingestOrRefreshMatches toISOString up ag))
    = valorant_matches ag ++ new
    ∧ insertedCount (reply (ingestOrRefreshMatches toISOString up ag))
      = length new
    ∧ Forall
        (λ r,
           MatchRow.raw r = None
           ∧ ∃ active region n page m,
               activeOf ag = Some active
               ∧ up n region (ActivePlayer.name active) (ActivePlayer.tag active)
                 = HttpOk (Some page)
               ∧ m ∈ page
               ∧ usableId m = Some (MatchRow.id r)
               ∧ r = matchRowOf toISOString region active m (MatchRow.id r))
        new.
Proof.
  destruct (ingest_cases up ag)
    as [[(Hm & _ & _) Hc]|(active & region & asked & Hact & Hres & Hok)].
  { exists []. rewrite app_nil_r. by split_and!. }
  destruct (ingest_tables up ag active region asked Hact Hres Hok)
    as (-> & -> & Hm1 & _). cbv zeta. cbn [insertedCount].
  set (ms := FetchResult.data _).
  set (known := (player_cursor ag !! cursorKey region active)
                  ≫= CursorRow.last_match_id).
  set (ag1 := persistRegion active region ag) in *.
  destruct (advanceCursor_state (cursorKey region active)
              (newestOf toISOString ms)
              (walkMatches toISOString region active known ms (ag1, 0)).1)
    as (_ & -> & _).
  destruct (walkMatches_rows toISOString region active known ms ag1 0)
    as (new & H1 & H2 & _).
  destruct (walkMatches_projections region active known ms ag1 0)
    as (new' & H1' & Hall).
  assert (new' = new) as ->.
  { rewrite H1 in H1'. by apply app_inv_head in H1'. }
  exists new. rewrite H1, H2, Hm1. split_and!; [done | done |].
  eapply Forall_impl; [done|]. intros r (m & Hin & Hu & Hr).
  split; [by rewrite Hr|].
  exists active, region, (length asked).
  subst ms. unfold fetchLatestCompetitive in Hin, Hok.
  destruct (up (length asked) region _ _) as [st|[page|]] eqn:Hup;
    simpl in Hin, Hok; [done | | by apply elem_of_nil in Hin].
  by exists page, m.
Qed.

(** *** A page without the known match *)

Lemma isKnown_true known i :
  isKnown known i = true → known = Some i ∧ Js.truthy i = true.
Proof.
  unfold isKnown. intros [Ht Hk%bool_decide_eq_true]%andb_true_iff.
  subst. done.
Qed.

Lemma walkedIds_unknown known ms :
  (∀ k, known = Some k → k ∉ pageIds ms) →
  walkedIds known ms = pageIds ms.
Proof.
  induction ms as [|m ms IH]; intros Hk; [done|].
  unfold pageIds in *. simpl in *.
  destruct (usableId m) as [i|] eqn:Hu; [|by apply IH].
  destruct (isKnown known i) eqn:Hi.
  - apply isKnown_true in Hi as [-> _]. destruct (Hk i eq_refl). by left.
  - rewrite IH; [done|]. intros k Hkn Hin. apply (Hk k Hkn). by right.
Qed.

(** Without a cursor row for the player, or with a cursor whose match id
    is not in the fetched page, the call goes through the whole page:
    after it every match id of the page is stored, and the rows it added
    are those of the page ids that were not stored before. *)
Theorem unknown_cursor_takes_whole_page up ag active region asked page :
  activeOf ag = Some active →
  resolveRegion up active = (Some region, asked) →
  up (length asked) region (ActivePlayer.name active) (ActivePlayer.tag active)
  = HttpOk (Some page) →
  (∀ cur k,
     player_cursor ag !! cursorKey region active = Some cur →
     CursorRow.last_match_id cur = Some k →
     k ∉ pageIds page) →
  let ag' := after (ingestOrRefreshMatches toISOString up ag) in
  (∀ i, i ∈ pageIds page → i ∈ MatchRow.id <$> valorant_matches ag')
  ∧ (∀ i, i ∈ pageIds page → i ∈ StatsRow.match_id <$> valorant_player_stats ag')
  ∧ ∃ new,
      valorant_matches ag' = valorant_matches ag ++ new
      ∧ ∀ i, i ∈ MatchRow.id <$> new
             ↔ i ∈ pageIds page ∧ i ∉ MatchRow.id <$> valorant_matches ag.
Proof.
  intros Hact Hres Hup Hcur ag'. subst ag'.
  assert (fetchLatestCompetitive up active (length asked) region
          = {| FetchResult.ok := true; FetchResult.status := 200%N;
               FetchResult.data := page |}) as Hf.
  { unfold fetchLatestCompetitive. by rewrite Hup. }
  destruct (ingest_tables up ag active region asked Hact Hres)
    as (-> & _ & Hm1 & Hs1); [by rewrite Hf|]. cbv zeta. rewrite Hf.
  cbn [FetchResult.data].
  set (known := (player_cursor ag !! cursorKey region active)
                  ≫= CursorRow.last_match_id).
  set (ag1 := persistRegion active region ag) in *.
  assert (walkedIds known page = pageIds page) as Hw.
  { apply walkedIds_unknown. intros k Hk. subst known.
    destruct (player_cursor ag !! cursorKey region active) as [cur|] eqn:Hc;
      [|done].
    by apply (Hcur cur k). }
  destruct (advanceCursor_state (cursorKey region active)
              (newestOf toISOString page)
              (walkMatches toISOString region active known page (ag1, 0)).1)
    as (_ & -> & ->).
  split_and!.
  - intros i Hi. apply walkMatches_ids. right. by rewrite Hw.
  - intros i Hi. apply walkMatches_stats_ids. right. by rewrite Hw.
  - destruct (walkMatches_rows toISOString region active known page ag1 0)
      as (new & H1 & _ & _ & _ & H5).
    exists new. rewrite H1, Hm1. split; [done|].
    intros i. rewrite H5, Hw, Hm1, <- countById_elem. split.
    + intros [? Hc]. split; [done | lia].
    + intros [? Hc]. split; [done | lia].
Qed.


(** *** A repeated call *)

Lemma Agent_eq (a b : Agent) :
  state a = state b →
  valorant_matches a = valorant_matches b →
  valorant_player_stats a = valorant_player_stats b →
  player_cursor a = player_cursor b →
  a = b.
Proof. destruct a, b. simpl. by intros -> -> -> ->. Qed.

Lemma filter_all {A} (P : A → Prop) `{!∀ x, Decision (P x)} (l : list A) :
  Forall P l → filter P l = l.
Proof.
  induction 1 as [|x l Hx _ IH]; [done|].
  by rewrite filter_cons, decide_True, IH.
Qed.

Lemma walkMatches_idle region active known ms : ∀ acc,
  walkedIds known ms = [] →
  walkMatches toISOString region active known ms acc = acc.
Proof.
  induction ms as [|m ms IH]; intros acc; [done|].
  rewrite walkMatches_cons. cbn [walkedIds].
  destruct (usableId m) as [i|]; [|apply IH].
  by destruct (isKnown known i).
Qed.

(** The statistics table after the loop: the rows of the ids the loop
    did not handle, in their order, then rows that only depend on the
    page. *)
Lemma walkMatches_stats_shape region active known ms : ∀ ag n ag0 n0,
  valorant_player_stats ag0 = [] →
  valorant_player_stats
    (walkMatches toISOString region active known ms (ag, n)).1
  = filter (λ r, StatsRow.match_id r ∉ walkedIds known ms)
      (valorant_player_stats ag)
    ++ valorant_player_stats
         (walkMatches toISOString region active known ms (ag0, n0)).1.
Proof.
  induction ms as [|m ms IH]; intros ag n ag0 n0 H0.
  - simpl. rewrite H0, app_nil_r, filter_all; [done|].
    apply Forall_forall. intros r _. apply not_elem_of_nil.
  - rewrite !walkMatches_cons. cbn [walkedIds].
    destruct (usableId m) as [i|]; [|by apply IH].
    destruct (isKnown known i).
    { simpl. rewrite H0, app_nil_r, filter_all; [done|].
      apply Forall_forall. intros r _. apply not_elem_of_nil. }
    pose proof (ingestMatch_stats toISOString region active m i ag n) as Hs.
    pose proof (ingestMatch_stats toISOString region active m i ag0 n0) as Hs0.
    destruct (ingestMatch toISOString region active m i (ag, n)) as [ag' n'].
    destruct (ingestMatch toISOString region active m i (ag0, n0)) as [ag0' n0'].
    simpl in Hs, Hs0.
    rewrite (IH ag' n' ag0 n0 H0), (IH ag0' n0' ag0 n0 H0), Hs, Hs0, H0.
    unfold insertOrReplace at 1. rewrite filter_app, <- !app_assoc. f_equal.
    rewrite list_filter_filter. apply list_filter_iff.
    intros r. rewrite not_elem_of_cons.
    unfold insertOrReplace. simpl. tauto.
Qed.

(** A second call answered like the first leaves the whole agent as the
    first call left it: the session state and the three tables, the
    statistics rows and their order included. *)
Theorem repeated_sync_changes_nothing up1 up2 ag active region asked :
  activeOf ag = Some active →
  resolveRegion up1 active = (Some region, asked) →
  up2 0 region (ActivePlayer.name active) (ActivePlayer.tag active)
  = up1 (length asked) region (ActivePlayer.name active) (ActivePlayer.tag active) →
  let run1 := ingestOrRefreshMatches toISOString up1 ag in
  let run2 := ingestOrRefreshMatches toISOString up2 (after run1) in
  after run2 = after run1 ∧ requested run2 = [region].
Proof.
  intros Hact Hres Hup run1 run2. subst run1 run2.
  destruct (activeOf_persistRegion up1 ag active region asked Hact Hres)
    as (a' & Ha' & Hr' & Hn' & Ht').
  rewrite (ingest_resolved toISOString up1 ag active region asked Hact Hres).
  cbv zeta.
  pose proof (fetchLatestCompetitive_ext up1 up2 active a' (length asked) 0
                region Hn' Ht' Hup) as Hfetch.
  set (ag1 := persistRegion active region ag) in *.
  set (pk := cursorKey region active).
  set (res := fetchLatestCompetitive up1 active (length asked) region) in *.
  destruct (negb (FetchResult.ok res)) eqn:Hok; cbn [after].
  - rewrite (ingest_known_region toISOString up2 ag1 a' region Ha' Hr').
    cbv zeta. rewrite Hfetch, Hok. done.
  - set (known := (player_cursor ag1 !! pk) ≫= CursorRow.last_match_id).
    set (ms := FetchResult.data res).
    set (w := walkMatches toISOString region active known ms (ag1, 0)).
    set (after1 := advanceCursor pk (newestOf toISOString ms) w.1).
    destruct (walkMatches_state toISOString region active known ms (ag1, 0))
      as [Hst Hcur]. fold w in Hst, Hcur. simpl in Hst, Hcur.
    destruct (advanceCursor_state pk (newestOf toISOString ms) w.1)
      as (Hst1 & Hm1 & Hs1). fold after1 in Hst1, Hm1, Hs1.
    assert (activeOf after1 = Some a') as Ha1.
    { rewrite <- Ha'. apply activeOf_state. by rewrite Hst1, Hst. }
    rewrite (ingest_known_region toISOString up2 after1 a' region Ha1 Hr').
    cbv zeta.
    rewrite Hfetch, Hok, (cursorKey_ext region active a' Hn' Ht').
    fold pk ms.
    rewrite (walkMatches_ext toISOString region active a' _ ms _ Hn' Ht').
    cbn [after requested]. split; [|done].
    set (known2 := (player_cursor after1 !! pk) ≫= CursorRow.last_match_id).
    destruct (Js.truthy_opt (newestOf toISOString ms).1) eqn:Hnew.
    + assert (walkedIds known2 ms = []) as Hidle.
      { subst known2 after1. unfold advanceCursor, upsertCursor.
        rewrite Hnew. simpl. rewrite lookup_insert_eq. simpl.
        destruct (newestOf toISOString ms).1 as [i0|] eqn:Hi0; [|done].
        by apply (walkedIds_newest toISOString). }
      rewrite (walkMatches_idle region active known2 ms _ Hidle). simpl.
      subst after1. unfold advanceCursor, upsertCursor. rewrite Hnew. simpl.
      by rewrite insert_insert_eq.
    + assert (after1 = w.1) as Hsame.
      { subst after1. unfold advanceCursor. by rewrite Hnew. }
      assert (known2 = known) as ->.
      { subst known2. by rewrite Hsame, Hcur. }
      unfold advanceCursor at 1. rewrite Hnew.
      destruct (walkMatches_state toISOString region active known ms (after1, 0))
        as [Hst2 Hcur2]. simpl in Hst2, Hcur2.
      destruct (walkMatches_no_insert toISOString region active known ms after1 0)
        as [Hm2 _].
      { intros i Hi. rewrite Hsame. by apply walkMatches_stored. }
      apply Agent_eq; try done.
      rewrite (walkMatches_stats_shape region active known ms after1 0
                 emptyAgent 0 eq_refl), Hsame.
      pose proof (walkMatches_stats_shape region active known ms ag1 0
                    emptyAgent 0 eq_refl) as Hshape.
      fold w in Hshape. rewrite Hshape, filter_app, list_filter_filter.
      rewrite (filter_none _ (valorant_player_stats
                                (walkMatches toISOString region active known ms
                                   (emptyAgent, 0)).1)).
      * rewrite app_nil_r. f_equal. apply list_filter_iff. tauto.
      * apply Forall_forall. intros r Hr Hn. apply Hn.
        assert (StatsRow.match_id r ∈ StatsRow.match_id <$>
                  valorant_player_stats
                    (walkMatches toISOString region active known ms
                       (emptyAgent, 0)).1) as Hin
          by by apply list_elem_of_fmap_2.
        apply walkMatches_stats_ids in Hin as [Hin|Hin]; [|done].
        by apply elem_of_nil in Hin.
Qed.


(** *** A page without match ids *)

Lemma walkedIds_in_page known ms i : i ∈ walkedIds known ms → i ∈ pageIds ms.
Proof.
  unfold pageIds. induction ms as [|m ms IH]; simpl; [done|].
  destruct (usableId m) as [j|]; [|done].
  destruct (isKnown known j); [by intros ?%elem_of_nil|].
  intros [->|?]%elem_of_cons; [by left | right; by apply IH].
Qed.

(** A successful answer that carries no match with an id (an empty list,
    a body whose [data] is not an array, or matches that all lack an id)
    is reported as a refresh with 0 new matches, and all three tables,
    the cursor included, are as before. *)
Theorem page_without_ids_stores_nothing up ag active region asked body :
  activeOf ag = Some active →
  resolveRegion up active = (Some region, asked) →
  up (length asked) region (ActivePlayer.name active) (ActivePlayer.tag active)
  = HttpOk body →
  pageIds (default [] body) = [] →
  let run := ingestOrRefreshMatches toISOString up ag in
  reply run
  = Refreshed (ActivePlayer.name active) (ActivePlayer.tag active) region 0
  ∧ sameTables ag (after run).
Proof.
  intros Hact Hres Hup Hids run. subst run.
  assert (fetchLatestCompetitive up active (length asked) region
          = {| FetchResult.ok := true; FetchResult.status := 200%N;
               FetchResult.data := default [] body |}) as Hf.
  { unfold fetchLatestCompetitive. by rewrite Hup. }
  destruct (ingest_tables up ag active region asked Hact Hres)
    as (-> & -> & _ & _); [by rewrite Hf|]. cbv zeta. rewrite Hf.
  cbn [FetchResult.data].
  set (known := (player_cursor ag !! cursorKey region active)
                  ≫= CursorRow.last_match_id).
  assert (walkedIds known (default [] body) = []) as Hidle.
  { destruct (walkedIds known (default [] body)) as [|i l] eqn:Hw; [done|].
    assert (i ∈ pageIds (default [] body)) as Hin.
    { apply (walkedIds_in_page known). rewrite Hw. by left. }
    rewrite Hids in Hin. by apply elem_of_nil in Hin. }
  rewrite (walkMatches_idle region active known _ _ Hidle). simpl.
  split; [done|].
  assert (Js.truthy_opt (newestOf toISOString (default [] body)).1 = false)
    as Hnew.
  { destruct (default [] body) as [|m0 rest]; [done|]. simpl.
    unfold pageIds in Hids. simpl in Hids. unfold usableId in Hids.
    destruct (matchIdOf m0) as [i|]; [|done]. simpl.
    by destruct (Js.truthy i). }
  unfold advanceCursor. rewrite Hnew. apply persistRegion_tables.
Qed.

End MoreIngest.

(** ** The queries, further *)

Lemma ltb_asym a b : String.ltb a b = true → String.ltb b a = false.
Proof.
  unfold String.ltb. rewrite (String.compare_antisym b a).
  by destruct (String.compare a b).
Qed.

Lemma ltb_false_trans a b c :
  String.ltb a b = false → String.ltb b c = false → String.ltb a c = false.
Proof.
  unfold String.ltb. intros Hab Hbc.
  destruct (String.compare a c) eqn:Hac; try done. exfalso.
  apply OrderedTypeEx.String_as_OT.cmp_lt in Hac.
  destruct (String.compare a b) eqn:Eab; [|done|].
  - apply OrderedTypeEx.String_as_OT.cmp_eq in Eab. subst b.
    apply OrderedTypeEx.String_as_OT.cmp_lt in Hac.
    unfold OrderedTypeEx.String_as_OT.cmp in Hac. by rewrite Hac in Hbc.
  - assert (OrderedTypeEx.String_as_OT.lt b a) as Hba.
    { apply OrderedTypeEx.String_as_OT.cmp_lt.
      unfold OrderedTypeEx.String_as_OT.cmp.
      rewrite String.compare_antisym, Eab. done. }
    pose proof (OrderedTypeEx.String_as_OT.lt_trans _ _ _ Hba Hac) as Hbc'.
    apply OrderedTypeEx.String_as_OT.cmp_lt in Hbc'.
    unfold OrderedTypeEx.String_as_OT.cmp in Hbc'. by rewrite Hbc' in Hbc.
Qed.

Lemma ltb_empty s : String.ltb "" s = false → s = "".
Proof. by destruct s. Qed.

Lemma insertDesc_perm {A} (key : A → string) x l :
  insertDesc key x l ≡ₚ x :: l.
Proof.
  induction l as [|y l IH]; simpl; [done|].
  destruct (String.ltb (key x) (key y)); [|done].
  by rewrite IH, Permutation_swap.
Qed.

Lemma orderByDesc_perm {A} (key : A → string) l : orderByDesc key l ≡ₚ l.
Proof.
  unfold orderByDesc. induction l as [|x l IH]; simpl; [done|].
  by rewrite insertDesc_perm, IH.
Qed.

Lemma orderByDesc_sorted {A} (key : A → string) l :
  StronglySorted (λ a b, String.ltb (key a) (key b) = false)
    (orderByDesc key l).
Proof.
  unfold orderByDesc. induction l as [|x l IH]; simpl; [constructor|].
  revert IH. generalize (foldr (insertDesc key) [] l). clear l.
  intros l Hl. induction Hl as [|y l Hl IH Hy]; simpl.
  - repeat constructor.
  - destruct (String.ltb (key x) (key y)) eqn:Hxy.
    + constructor; [done|]. apply Forall_forall. intros z Hz.
      apply insertDesc_elem in Hz as [->|Hz]; [by apply ltb_asym|].
      by apply (proj1 (Forall_forall _ _) Hy).
    + constructor; [by constructor|]. constructor; [done|].
      eapply Forall_impl; [done|]. intros z Hz. simpl in Hz.
      by apply (ltb_false_trans _ (key y)).
Qed.

Lemma selectMatches_filter active map n tbl :
  selectMatches active map n tbl
  = take n (orderByDesc startedKey (filter (selected active map) tbl)).
Proof.
  unfold selectMatches. do 2 f_equal.
  destruct map as [mp|]; simpl.
  - destruct (Js.truthy mp) eqn:Ht; apply list_filter_iff; intros r;
      unfold selected, whereNameTagMap; simpl; rewrite Ht.
    + split; [by intros [? ->] | intros [? Hm]; by rewrite Hm].
    + split; [by intros ? | by intros [? _]].
  - apply list_filter_iff. intros r. unfold selected. simpl.
    split; [by intros ? | by intros [? _]].
Qed.

Lemma window_length_bound active map n tbl :
  length (selectMatches active map n tbl) ≤ n
  ∧ length (selectMatches active map n tbl)
    ≤ length (filter (selected active map) tbl).
Proof.
  rewrite selectMatches_filter, length_take.
  pose proof (Permutation_length
                (orderByDesc_perm startedKey
                   (filter (selected active map) tbl))). lia.
Qed.

(** The window of [queryKDR] and [listRecentMatches] holds the most
    recent matches of the player: at most [n] rows, newest first, each
    not older than every kept row left out, and all the kept rows when
    there are fewer than [n]; a row without [started_at] never comes
    before a row with a non-empty one. *)
Theorem window_is_most_recent active map n tbl :
  let w := selectMatches active map n tbl in
  length w ≤ n
  ∧ StronglySorted notOlder w
  ∧ (∃ rest,
       w ++ rest ≡ₚ filter (selected active map) tbl
       ∧ (∀ r r', r ∈ w → r' ∈ rest → notOlder r r')
       ∧ (length w < n → rest = []))
  ∧ (∀ i j r r',
       i < j → w !! i = Some r → w !! j = Some r' →
       MatchRow.started_at r = None → startedKey r' = "").
Proof.
  intros w. subst w. rewrite selectMatches_filter.
  set (l := orderByDesc startedKey (filter (selected active map) tbl)).
  pose proof (orderByDesc_sorted startedKey (filter (selected active map) tbl))
    as Hs. fold l in Hs.
  rewrite <- (take_drop n l) in Hs.
  apply StronglySorted_app in Hs as (Hcross & Hw & _).
  split_and!.
  - rewrite length_take. lia.
  - done.
  - exists (drop n l). rewrite take_drop. split_and!.
    + apply orderByDesc_perm.
    + done.
    + rewrite length_take. intros Hlt. apply drop_ge. lia.
  - intros i j r r' Hij Hi Hj Hnull.
    apply take_drop_middle in Hj. rewrite <- Hj in Hw.
    assert (r ∈ take j (take n l)) as Hin.
    { apply list_elem_of_lookup. exists i. by rewrite lookup_take_lt. }
    pose proof (StronglySorted_app_1_elem_of _ _ _ r r' Hw Hin) as Hrr.
    unfold notOlder in Hrr. unfold startedKey at 1 in Hrr.
    rewrite Hnull in Hrr. simpl in Hrr. apply ltb_empty, Hrr. by left.
Qed.

(** The map filter of [queryKDR] and of [summarizeRecentPerformance]. A
    non-empty [map] keeps only the matches played on exactly that map: in
    the window of [queryKDR] every row has that map, in the window of
    [summarizeRecentPerformance] every statistics row is joined to a
    stored match with that map, and a reply with a result counts that
    window and names that map. An empty [map] string filters nothing:
    the windows are those of a call without [map], and where such a call
    answers with a result under the map ["all"], the call with the empty
    string answers with the same result under the empty string. *)
Theorem map_filter_and_empty_map active mp n ag :
  (mp ≠ "" →
   (∀ r, r ∈ selectMatches active (Some mp) n (valorant_matches ag) →
         MatchRow.map r = Some mp)
   ∧ (∀ ps,
        ps ∈ selectStats active (Some mp) n (valorant_player_stats ag)
               (valorant_matches ag) →
        ∃ m, m ∈ valorant_matches ag
             ∧ MatchRow.id m = StatsRow.match_id ps
             ∧ MatchRow.map m = Some mp)
   ∧ (activeOf ag = Some active →
      (∀ c m v,
         queryKDR (Some mp) n ag = KdrResult c m v →
         c = length (selectMatches active (Some mp) n (valorant_matches ag))
         ∧ m = mp)
      ∧ (∀ c m av,
           summarizeRecentPerformance (Some mp) n ag = SummaryResult c m av →
           c = length (selectStats active (Some mp) n (valorant_player_stats ag)
                         (valorant_matches ag))
           ∧ m = mp)))
  ∧ selectMatches active (Some "") n (valorant_matches ag)
    = selectMatches active None n (valorant_matches ag)
  ∧ selectStats active (Some "") n (valorant_player_stats ag)
      (valorant_matches ag)
    = selectStats active None n (valorant_player_stats ag) (valorant_matches ag)
  ∧ (∀ c m v,
       queryKDR None n ag = KdrResult c m v →
       m = "all" ∧ queryKDR (Some "") n ag = KdrResult c "" v)
  ∧ (∀ c m av,
       summarizeRecentPerformance None n ag = SummaryResult c m av →
       m = "all"
       ∧ summarizeRecentPerformance (Some "") n ag = SummaryResult c "" av).
Proof.
  split_and!; [|done|done| |].
  - intros Hne%truthy_true. split_and!.
    + intros r. rewrite selectMatches_filter.
      intros Hr%subseteq_take%orderByDesc_elem.
      apply list_elem_of_filter in Hr as [[_ Hm] _]. by apply Hm.
    + intros ps. unfold selectStats. simpl. rewrite Hne.
      intros ([ps' m] & -> & Hr)%list_elem_of_fmap.
      apply subseteq_take, orderByDesc_elem in Hr.
      apply list_elem_of_filter in Hr as [[_ Hm] (_ & ? & ?)%joinStats_elem].
      by exists m.
    + intros Hact. split.
      * intros c m v. unfold queryKDR. rewrite Hact.
        destruct (selectMatches active (Some mp) n (valorant_matches ag))
          as [|r rows] eqn:Hsel; [done|].
        destruct (kdrOfRows_nonempty (Some mp) (r :: rows)) as (v' & -> & _);
          [done|].
        by intros [= <- <- _].
      * intros c m av. unfold summarizeRecentPerformance. rewrite Hact.
        destruct (selectStats active (Some mp) n (valorant_player_stats ag)
                    (valorant_matches ag)) as [|r rows] eqn:Hsel; [done|].
        destruct (summaryOfRows_nonempty (Some mp) (r :: rows))
          as (av' & -> & _); [done|].
        by intros [= <- <- _].
  - intros c m v. unfold queryKDR.
    destruct (activeOf ag) as [active'|]; [|done].
    change (selectMatches active' (Some "") n (valorant_matches ag))
      with (selectMatches active' None n (valorant_matches ag)).
    destruct (selectMatches active' None n (valorant_matches ag)); [done|].
    by intros [= <- <- <-].
  - intros c m av. unfold summarizeRecentPerformance.
    destruct (activeOf ag) as [active'|]; [|done].
    change (selectStats active' (Some "") n (valorant_player_stats ag)
              (valorant_matches ag))
      with (selectStats active' None n (valorant_player_stats ag)
              (valorant_matches ag)).
    destruct (selectStats active' None n (valorant_player_stats ag)
                (valorant_matches ag)); [done|].
    by intros [= <- <- <-].
Qed.

Lemma imap_listedOf_index k rows :
  Listed.index <$> imap (λ i, listedOf (k + i)) rows
  = seq (k + 1) (length rows).
Proof.
  revert k. induction rows as [|r rows IH]; intros k; [done|].
  rewrite imap_cons, fmap_cons. simpl. rewrite Nat.add_0_r. f_equal.
  etrans; [|exact (IH (S k))]. f_equal. apply imap_ext. intros i x _. simpl.
  by rewrite Nat.add_succ_r.
Qed.

Lemma imap_listedOf_id k rows :
  Listed.id <$> imap (λ i, listedOf (k + i)) rows = MatchRow.id <$> rows.
Proof.
  revert k. induction rows as [|r rows IH]; intros k; [done|].
  rewrite imap_cons, !fmap_cons. simpl. f_equal.
  etrans; [|exact (IH (S k))]. f_equal. apply imap_ext. intros i x _. simpl.
  by rewrite Nat.add_succ_r.
Qed.

(** [listRecentMatches] lists the window [queryKDR] computes over, for a
    limit equal to [lastN] and no map: when the player has a stored
    match, the listing has one line per match [queryKDR] considers, at
    most [limit] of them, numbered from 1, in the order of the window. *)
Theorem listing_is_the_kdr_window limit ag active :
  activeOf ag = Some active →
  let w := selectMatches active None limit (valorant_matches ag) in
  w ≠ [] →
  ∃ lines v,
    listRecentMatches limit ag = ListLines lines
    ∧ queryKDR None limit ag = KdrResult (length lines) "all" v
    ∧ length lines = length w
    ∧ length lines ≤ limit
    ∧ Listed.index <$> lines = seq 1 (length lines)
    ∧ Listed.id <$> lines = MatchRow.id <$> w.
Proof.
  intros Hact w Hne. unfold listRecentMatches, queryKDR. rewrite Hact.
  pose proof (proj1 (window_length_bound active None limit (valorant_matches ag)))
    as Hlen.
  fold w in Hlen |- *. clearbody w.
  destruct w as [|r rows]; [done|].
  destruct (kdrOfRows_nonempty None (r :: rows)) as (v & Hv & _); [done|].
  exists (imap listedOf (r :: rows)), v. rewrite length_imap. split_and!.
  - done.
  - done.
  - done.
  - done.
  - apply (imap_listedOf_index 0).
  - apply (imap_listedOf_id 0).
Qed.

(** Each average of the summary is the mean of its column over the
    window, a null counting as 0, rounded to two decimals; the window
    size it divides by is the number of matches considered. *)
Theorem averages_are_rounded_means ag active map lastN :
  activeOf ag = Some active →
  let rows :=
    selectStats active map lastN (valorant_player_stats ag)
      (valorant_matches ag) in
  rows ≠ [] →
  ∃ av,
    summarizeRecentPerformance map lastN ag
    = SummaryResult (length rows) (default "all" map) av
    ∧ roundedTo2 (meanN StatsRow.kills rows) (Averages.kills av)
    ∧ roundedTo2 (meanN StatsRow.deaths rows) (Averages.deaths av)
    ∧ roundedTo2 (meanN StatsRow.assists rows) (Averages.assists av)
    ∧ roundedTo2 (meanN StatsRow.score rows) (Averages.score av)
    ∧ roundedTo2 (meanN StatsRow.damage_made rows) (Averages.damageMade av)
    ∧ roundedTo2 (meanN StatsRow.damage_received rows)
        (Averages.damageReceived av)
    ∧ roundedTo2 (meanN StatsRow.spent_overall rows) (Averages.spentOverall av)
    ∧ roundedTo2 (meanN StatsRow.loadout_overall rows)
        (Averages.loadoutOverall av).
Proof.
  intros Hact rows Hne. unfold summarizeRecentPerformance. rewrite Hact.
  fold rows. destruct rows as [|r rows']; [done|].
  unfold summaryOfRows, meanN. rewrite !sumN_total.
  eexists. split; [done|].
  cbn [Averages.kills Averages.deaths Averages.assists Averages.score
       Averages.damageMade Averages.damageReceived Averages.spentOverall
       Averages.loadoutOverall].
  split_and!; exact (toFixed2_rounded _).
Qed.

(** ** The cursor and the stored matches *)

Section CursorAndStore.

Variable toISOString : Z → string.

(** A sync keeps every cursor on a stored match: when each cursor row
    holds a non-empty match id that has a row in [valorant_matches], the
    same is true after the call. *)
Theorem cursor_points_to_stored_match up ag :
  (∀ pk cur,
     player_cursor ag !! pk = Some cur →
     ∃ i, CursorRow.last_match_id cur = Some i ∧ i ≠ ""
          ∧ i ∈ MatchRow.id <$> valorant_matches ag) →
  let ag' := after (ingestOrRefreshMatches toISOString up ag) in
  ∀ pk cur,
    player_cursor ag' !! pk = Some cur →
    ∃ i, CursorRow.last_match_id cur = Some i ∧ i ≠ ""
         ∧ i ∈ MatchRow.id <$> valorant_matches ag'.
Proof.
  intros Hinv ag'. subst ag'.
  destruct (ingest_cases toISOString up ag)
    as [[(-> & _ & ->) _]|(active & region & asked & Hact & Hres & Hok)];
    [done|].
  destruct (ingest_tables toISOString up ag active region asked Hact Hres Hok)
    as (-> & _ & Hm1 & _). cbv zeta.
  set (ms := FetchResult.data _).
  set (pk0 := cursorKey region active).
  set (known := (player_cursor ag !! pk0) ≫= CursorRow.last_match_id).
  destruct (walkMatches_state toISOString region active known ms
              (persistRegion active region ag, 0)) as [_ Hc]. simpl in Hc.
  rewrite (persistRegion_cursor active region ag) in Hc.
  set (ag1 := persistRegion active region ag) in *.
  destruct (advanceCursor_state pk0 (newestOf toISOString ms)
              (walkMatches toISOString region active known ms (ag1, 0)).1)
    as (_ & Hm & _).
  rewrite Hm. clear Hm.
  assert (∀ i, i ∈ MatchRow.id <$> valorant_matches ag ∨ i ∈ walkedIds known ms →
               i ∈ MatchRow.id <$>
                     valorant_matches
                       (walkMatches toISOString region active known ms
                          (ag1, 0)).1) as Hin.
  { intros i Hi. apply (walkMatches_ids toISOString). by rewrite Hm1. }
  set (w := walkMatches _ _ _ _ _ _) in *. clearbody w.
  assert (∀ pk cur, player_cursor ag !! pk = Some cur →
            ∃ i, CursorRow.last_match_id cur = Some i ∧ i ≠ ""
                 ∧ i ∈ MatchRow.id <$> valorant_matches w.1) as Hold.
  { intros pk cur Hcur. destruct (Hinv pk cur Hcur) as (i & ? & ? & ?).
    exists i. split_and!; [done | done | apply Hin; by left]. }
  intros pk cur. unfold advanceCursor, upsertCursor.
  destruct (Js.truthy_opt (newestOf toISOString ms).1) eqn:Hnew;
    [|rewrite Hc; apply Hold].
  simpl. destruct (decide (pk = pk0)) as [->|Hne];
    [|rewrite lookup_insert_ne, Hc by done; apply Hold].
  rewrite lookup_insert_eq. intros [= <-]. simpl.
  clearbody ms. destruct ms as [|m0 rest]; [done|]. simpl in Hnew |- *.
  destruct (matchIdOf m0) as [i|] eqn:Hid; [|done]. simpl in Hnew.
  exists i. split_and!; [done | by apply truthy_true |].
  assert (usableId m0 = Some i) as Hu by by apply usableId_Some.
  destruct (isKnown known i) eqn:Hk.
  - apply Hin. left. apply isKnown_true in Hk as [Hk _].
    subst known. destruct (player_cursor ag !! pk0) as [cur0|] eqn:Hcur0; [|done].
    destruct (Hinv pk0 cur0 Hcur0) as (j & Hj & _ & Hj').
    simpl in Hk. congruence.
  - apply Hin. right. cbn [walkedIds]. rewrite Hu, Hk. by left.
Qed.

Lemma NoDup_incl_length (l k : list string) :
  NoDup l → (∀ x, x ∈ l → x ∈ k) → length l ≤ length k.
Proof.
  intros Hnd Hin. apply submseteq_length, NoDup_submseteq; [done|].
  intros x. apply Hin.
Qed.

Lemma pageIds_length ms : length (pageIds ms) ≤ length ms.
Proof.
  unfold pageIds. induction ms as [|m ms IH]; [done|].
  change (omap usableId (m :: ms))
    with (match usableId m with
          | Some i => i :: omap usableId ms
          | None => omap usableId ms
          end).
  destruct (usableId m); simpl; lia.
Qed.

(** A call reports at most as many new matches as the fetched page holds
    matches with an id. *)
Theorem inserted_at_most_page up ag active region asked body :
  activeOf ag = Some active →
  resolveRegion up active = (Some region, asked) →
  up (length asked) region (ActivePlayer.name active) (ActivePlayer.tag active)
  = HttpOk body →
  insertedCount (reply (ingestOrRefreshMatches toISOString up ag))
  ≤ length (pageIds (default [] body))
  ∧ length (pageIds (default [] body)) ≤ length (default [] body).
Proof.
  intros Hact Hres Hup. split; [|apply pageIds_length].
  assert (fetchLatestCompetitive up active (length asked) region
          = {| FetchResult.ok := true; FetchResult.status := 200%N;
               FetchResult.data := default [] body |}) as Hf.
  { unfold fetchLatestCompetitive. by rewrite Hup. }
  destruct (ingest_tables toISOString up ag active region asked Hact Hres)
    as (_ & -> & _ & _); [by rewrite Hf|]. cbv zeta. rewrite Hf.
  cbn [FetchResult.data insertedCount].
  set (known := (player_cursor ag !! cursorKey region active)
                  ≫= CursorRow.last_match_id).
  destruct (walkMatches_rows toISOString region active known (default [] body)
              (persistRegion active region ag) 0)
    as (new & _ & -> & _ & Hnd & H5).
  simpl. rewrite <- (length_fmap MatchRow.id new).
  apply NoDup_incl_length; [done|].
  intros i Hi. apply H5 in Hi as [Hi _].
  by apply (walkedIds_in_page known).
Qed.

End CursorAndStore.

(** ** Further instances *)

Lemma setActivePlayer_replaces_witness :
  activePlayer (state (setActivePlayer MoreExamples.curryInput Example.ollieAtM1).2)
  = Some (Example.identity "curry" "XDDDD" None).
Proof.
  refine (proj1 (proj2 (proj2 (proj2
    (setActivePlayer_replaces MoreExamples.curryInput Example.ollieAtM1
       "curry" "XDDDD" None _))))).
  vm_compute; reflexivity.
Defined.

Lemma known_region_single_request_witness :
  requested
    (ingestOrRefreshMatches Example.toISOString
       (Example.serving MoreExamples.fiveGames) Example.ollieAgain)
  = [na].
Proof.
  refine (proj1
    (known_region_single_request Example.toISOString
       (Example.serving MoreExamples.fiveGames) Example.ollieAgain
       (Example.identity "ollie" "chaos" (Some na)) na _ _));
    vm_compute; reflexivity.
Defined.

Lemma sync_keeps_identity_witness :
  ∃ active',
    activeOf
      (after
         (ingestOrRefreshMatches Example.toISOString
            (Example.onlyEu MoreExamples.fiveGames)
            (Example.activate "ollie#chaos" None emptyAgent)))
    = Some active'
    ∧ ActivePlayer.name active' = "ollie"
    ∧ ActivePlayer.tag active' = "chaos".
Proof.
  destruct (sync_keeps_identity Example.toISOString
              (Example.onlyEu MoreExamples.fiveGames)
              (Example.activate "ollie#chaos" None emptyAgent)
              (Example.identity "ollie" "chaos" None))
    as (a' & H1 & H2 & H3 & _).
  - vm_compute; reflexivity.
  - exists a'. split_and!; [exact H1 | exact H2 | exact H3].
Defined.

Lemma tables_change_only_when_refreshed_witness :
  sameTables Example.ollieAgain
    (after
       (ingestOrRefreshMatches Example.toISOString Example.failing
          Example.ollieAgain)).
Proof.
  apply (tables_change_only_when_refreshed Example.toISOString Example.failing
           Example.ollieAgain).
  intros n t r i. vm_compute. discriminate.
Defined.

Lemma sync_keeps_keys_unique_witness :
  NoDup
    (MatchRow.id <$>
       valorant_matches
         (after
            (ingestOrRefreshMatches Example.toISOString
               (Example.serving MoreExamples.fiveGames) Example.ollieAgain))).
Proof.
  refine (proj1
    (sync_keeps_keys_unique Example.toISOString
       (Example.serving MoreExamples.fiveGames) Example.ollieAgain _ _));
    refine (bool_decide_unpack _ _); vm_compute; exact I.
Defined.

Lemma sync_keeps_tables_in_step_witness :
  "M8" ∈ MatchRow.id <$>
           valorant_matches
             (after
                (ingestOrRefreshMatches Example.toISOString
                   (Example.serving MoreExamples.fiveGames)
                   MoreExamples.ollieFresh))
  ↔ "M8" ∈ StatsRow.match_id <$>
             valorant_player_stats
               (after
                  (ingestOrRefreshMatches Example.toISOString
                     (Example.serving MoreExamples.fiveGames)
                     MoreExamples.ollieFresh)).
Proof.
  apply (sync_keeps_tables_in_step Example.toISOString
           (Example.serving MoreExamples.fiveGames) MoreExamples.ollieFresh).
  intros i. vm_compute. tauto.
Defined.

Lemma cursor_follows_first_match_witness :
  player_cursor
    (after
       (ingestOrRefreshMatches Example.toISOString
          (Example.serving MoreExamples.fiveGames) Example.ollieAgain))
    !! "na:ollie:chaos"
  = Some {| CursorRow.last_match_id := Some "M8";
            CursorRow.last_started_at := Some "2024 M8" |}.
Proof.
  refine (proj1 (proj2
    (cursor_follows_first_match Example.toISOString
       (Example.serving MoreExamples.fiveGames) Example.ollieAgain
       (Example.identity "ollie" "chaos" (Some na)) na []
       MoreExamples.fiveGames _ _ _))
    (Example.game "M8")
    [Example.game "M7"; Example.game "M6"; Example.game "M5";
     Example.game "M4"] "M8" _ _); vm_compute; reflexivity.
Defined.

Lemma unknown_cursor_takes_whole_page_witness :
  "M4" ∈ MatchRow.id <$>
           valorant_matches
             (after
                (ingestOrRefreshMatches Example.toISOString
                   (Example.serving MoreExamples.fiveGames)
                   MoreExamples.ollieFresh)).
Proof.
  refine (proj1
    (unknown_cursor_takes_whole_page Example.toISOString
       (Example.serving MoreExamples.fiveGames) MoreExamples.ollieFresh
       (Example.identity "ollie" "chaos" (Some na)) na []
       MoreExamples.fiveGames _ _ _ _) "M4" _); try (vm_compute; reflexivity).
  - intros cur k Hcur. vm_compute in Hcur. discriminate.
  - refine (bool_decide_unpack _ _). vm_compute. exact I.
Defined.

Lemma repeated_sync_changes_nothing_witness :
  after
    (ingestOrRefreshMatches Example.toISOString
       (Example.serving MoreExamples.fiveGames)
       (after
          (ingestOrRefreshMatches Example.toISOString
             (Example.serving MoreExamples.fiveGames) Example.ollieAgain)))
  = after
      (ingestOrRefreshMatches Example.toISOString
         (Example.serving MoreExamples.fiveGames) Example.ollieAgain).
Proof.
  refine (proj1
    (repeated_sync_changes_nothing Example.toISOString
       (Example.serving MoreExamples.fiveGames)
       (Example.serving MoreExamples.fiveGames) Example.ollieAgain
       (Example.identity "ollie" "chaos" (Some na)) na [] _ _ _));
    vm_compute; reflexivity.
Defined.

Lemma averages_are_rounded_means_witness :
  ∃ av,
    summarizeRecentPerformance None 10 Example.ollieAtM1
    = SummaryResult 1 "all" av
    ∧ roundedTo2 10 (Averages.kills av).
Proof.
  destruct (averages_are_rounded_means Example.ollieAtM1
              (Example.identity "ollie" "chaos" (Some na)) None 10)
    as (av & Hs & Hk & _).
  - vm_compute; reflexivity.
  - vm_compute. discriminate.
  - exists av. split; [exact Hs|].
    destruct Hk as [Hz Hd]. split; [exact Hz|].
    exact Hd.
Defined.

Lemma page_without_ids_stores_nothing_witness :
  reply
    (ingestOrRefreshMatches Example.toISOString
       (Example.serving [MoreExamples.nameless; MoreExamples.nameless])
       Example.ollieAgain)
  = Refreshed "ollie" "chaos" na 0.
Proof.
  refine (proj1
    (page_without_ids_stores_nothing Example.toISOString
       (Example.serving [MoreExamples.nameless; MoreExamples.nameless])
       Example.ollieAgain (Example.identity "ollie" "chaos" (Some na)) na []
       (Some [MoreExamples.nameless; MoreExamples.nameless]) _ _ _ _));
    vm_compute; reflexivity.
Defined.

Lemma cursor_points_to_stored_match_witness :
  ∃ i, Some "M8" = Some i ∧ i ≠ ""
       ∧ i ∈ MatchRow.id <$>
               valorant_matches
                 (after
                    (ingestOrRefreshMatches Example.toISOString
                       (Example.serving MoreExamples.fiveGames)
                       Example.ollieAgain)).
Proof.
  refine (cursor_points_to_stored_match Example.toISOString
            (Example.serving MoreExamples.fiveGames) Example.ollieAgain _
            (cursorKey na (Example.identity "ollie" "chaos" (Some na)))
            {| CursorRow.last_match_id := Some "M8";
               CursorRow.last_started_at := Some "2024 M8" |} _);
    [|vm_compute; reflexivity].
  intros pk cur Hcur%elem_of_map_to_list.
  remember (map_to_list (player_cursor Example.ollieAgain)) as rows eqn:Hrows.
  vm_compute in Hrows. subst rows.
  apply elem_of_cons in Hcur as [[= -> ->]|Hcur];
    [|apply elem_of_cons in Hcur as [[= -> ->]|Hcur];
      [|by apply elem_of_nil in Hcur]].
  - exists "M5". split_and!; [reflexivity | discriminate |].
    refine (bool_decide_unpack _ _). vm_compute. exact I.
  - exists "M7". split_and!; [reflexivity | discriminate |].
    refine (bool_decide_unpack _ _). vm_compute. exact I.
Defined.

Lemma inserted_at_most_page_witness :
  insertedCount
    (reply
       (ingestOrRefreshMatches Example.toISOString
          (Example.serving MoreExamples.fiveGames) Example.ollieAgain))
  ≤ 5.
Proof.
  refine (proj1
    (inserted_at_most_page Example.toISOString
       (Example.serving MoreExamples.fiveGames) Example.ollieAgain
       (Example.identity "ollie" "chaos" (Some na)) na []
       (Some MoreExamples.fiveGames) _ _ _)); vm_compute; reflexivity.
Defined.

Lemma listing_is_the_kdr_window_witness :
  ∃ lines v,
    listRecentMatches 10 Example.ollieAtM5 = ListLines lines
    ∧ queryKDR None 10 Example.ollieAtM5 = KdrResult (length lines) "all" v
    ∧ Listed.index <$> lines = [1; 2]
    ∧ Listed.id <$> lines = ["M5"; "M4"].
Proof.
  destruct (listing_is_the_kdr_window 10 Example.ollieAtM5
              (Example.identity "ollie" "chaos" (Some na)))
    as (lines & v & Hl & Hk & Hlen & _ & Hidx & Hid).
  - vm_compute; reflexivity.
  - vm_compute. discriminate.
  - exists lines, v. split_and!; [exact Hl | exact Hk | |].
    + rewrite Hidx, Hlen. vm_compute. reflexivity.
    + rewrite Hid. vm_compute. reflexivity.
Defined.
